(** * ONT_VC: the variant-calling workflow of [pipeline_variantcalling.py]

    The repository is one Python module that declares a ruffus/cgatcore
    workflow: a configuration block that computes [DATADIR], the glob
    patterns of the input files, and a chain of task declarations whose
    inputs and outputs are linked by regular expressions and substitution
    templates.  This development embeds

    - [Re]: the fragment of Python's [re] syntax and backtracking
      semantics that the task declarations use (literals, [.], [\S],
      [+], groups), with [re.search] and [re.subn]; ruffus' [regex(...)]
      filter applies [re.subn] to every input path, so a pattern matches
      anywhere in a path and what it does not match is kept;
    - [Config]: the configuration block;
    - [Pipeline]: [posixpath.join] and [split], [glob], the decorators
      [@transform] and [@merge], and the task declarations themselves;
    - [Scheduler]: the scheduler loop, which the repository leaves to
      the engine;
    - [Body]: the string methods that the bodies of the tasks call
      ([replace], [join]) and the paths each body computes for its
      command line;
    - [Tasks] and [Workflow]: the tasks with what they are declared on
      and the directories they have made, and the jobs of all the tasks
      for the files of a directory;
    - [Init]: what loading the module computes before the tasks are
      declared.

    The facts about the embedding follow, then the claims, and then
    further properties of the task declarations, of the bodies and of
    the workflow as a whole. *)

From Stdlib Require Import String Ascii List Arith Lia Bool SpecFloat.
From stdpp Require Import base option list strings gmap.
Import ListNotations.

Local Open Scope string_scope.
Local Open Scope list_scope.
Local Open Scope nat_scope.

(** ** Python's [re]: the fragment used by the workflow *)

Module Re.

(** Paths are sequences of code points; the model covers code points
    below 256. *)
Definition text := list ascii.

Definition of_string (s : string) : text := list_ascii_of_string s.

(** One-character classes: a literal, [.] (anything but a newline) and
    [\S] (anything but whitespace). *)
Inductive cls : Type :=
  | CLit (c : ascii)
  | CAny
  | CNonSpace.

(** [str.isspace] on code points below 256: tab to carriage return, the
    four separators 28..31, space, NEL and the no-break space. *)
Definition is_space (a : ascii) : bool :=
  let n := nat_of_ascii a in
  ((9 <=? n) && (n <=? 13)) || ((28 <=? n) && (n <=? 32))
  || (n =? 133) || (n =? 160).

Definition cls_ok (c : cls) (a : ascii) : bool :=
  match c with
  | CLit x => Ascii.eqb x a
  | CAny => negb (Ascii.eqb a "010"%char)
  | CNonSpace => negb (is_space a)
  end.

(** Patterns.  A group carries its number (groups are numbered by their
    opening parenthesis); [+] is only applied to a one-character class,
    which is all the workflow does. *)
Inductive re : Type :=
  | Eps
  | Chr (c : cls)
  | Plus (c : cls)
  | Grp (n : nat) (r : re)
  | Cat (r1 r2 : re).

(** *** Parsing a pattern string *)

Definition is_alnum (a : ascii) : bool :=
  let n := nat_of_ascii a in
  ((48 <=? n) && (n <=? 57)) || ((65 <=? n) && (n <=? 90))
  || ((97 <=? n) && (n <=? 122)) || (n =? 95).

(** Characters with a meaning of their own in a pattern. *)
Definition is_meta (a : ascii) : bool :=
  existsb (Ascii.eqb a)
    ["\"; "."; "^"; "$"; "*"; "+"; "?"; "{"; "}"; "["; "]"; "|"; "("; ")"]%char.

(** The atom still waiting for a possible [+] is kept apart from the
    part of the sequence that is complete. *)
Definition flush (cur : re) (pend : option cls) : re :=
  match pend with
  | Some c => Cat cur (Chr c)
  | None => cur
  end.

(** [stack] holds, for every group that is still open, the sequence read
    before its parenthesis and the group's number; [n] counts the groups
    opened so far.  Syntax outside the fragment gives [None]. *)
Fixpoint parse_loop (s : text) (cur : re) (pend : option cls)
    (stack : list (re * nat)) (n : nat) : option (re * nat) :=
  match s with
  | [] =>
      match stack with
      | [] => Some (flush cur pend, n)
      | _ :: _ => None
      end
  | a :: s' =>
      if Ascii.eqb a "\"%char then
        match s' with
        | b :: s'' =>
            if Ascii.eqb b "S"%char
            then parse_loop s'' (flush cur pend) (Some CNonSpace) stack n
            else if is_alnum b then None
            else parse_loop s'' (flush cur pend) (Some (CLit b)) stack n
        | [] => None
        end
      else if Ascii.eqb a "."%char then
        parse_loop s' (flush cur pend) (Some CAny) stack n
      else if Ascii.eqb a "+"%char then
        match pend with
        | Some c => parse_loop s' (Cat cur (Plus c)) None stack n
        | None => None
        end
      else if Ascii.eqb a "("%char then
        parse_loop s' Eps None ((flush cur pend, S n) :: stack) (S n)
      else if Ascii.eqb a ")"%char then
        match stack with
        | (parent, g) :: stack' =>
            parse_loop s' (Cat parent (Grp g (flush cur pend))) None stack' n
        | [] => None
        end
      else if is_meta a then None
      else parse_loop s' (flush cur pend) (Some (CLit a)) stack n
  end.

(** A compiled pattern: the syntax tree and the number of groups. *)
Record pattern : Type := { p_re : re; p_groups : nat }.

Definition compile (s : string) : option pattern :=
  match parse_loop (of_string s) Eps None [] 0 with
  | Some (r, n) => Some {| p_re := r; p_groups := n |}
  | None => None
  end.

(** *** Matching: greedy, with backtracking *)

(** The most recent capture of every group, latest first. *)
Definition caps := list (nat * text).

Fixpoint plus_greedy {A} (c : cls) (s : text) (k : text -> option A)
    : option A :=
  match s with
  | [] => None
  | a :: s' =>
      if cls_ok c a then
        match plus_greedy c s' k with
        | Some x => Some x
        | None => k s'
        end
      else None
  end.

(** [m r s cs k]: match [r] at the head of [s], then go on with [k] on
    what is left; a failure of [k] makes the matcher try its next
    alternative. *)
Fixpoint m {A} (r : re) (s : text) (cs : caps)
    (k : text -> caps -> option A) : option A :=
  match r with
  | Eps => k s cs
  | Chr c =>
      match s with
      | a :: s' => if cls_ok c a then k s' cs else None
      | [] => None
      end
  | Plus c => plus_greedy c s (fun s' => k s' cs)
  | Grp n r' =>
      m r' s cs
        (fun s' cs' => k s' ((n, firstn (length s - length s') s) :: cs'))
  | Cat r1 r2 => m r1 s cs (fun s' cs' => m r2 s' cs' k)
  end.

(** A match: what precedes it, the matched text, the captures, the rest. *)
Record found : Type :=
  { f_pre : text; f_word : text; f_caps : caps; f_rest : text }.

(** A match at the head of [s]; with [must_advance] an empty match is
    refused (the engine then backtracks). *)
Definition match_here (r : re) (s : text) (must_advance : bool)
    : option found :=
  m r s []
    (fun s' cs =>
       if must_advance && (length s' =? length s) then None
       else Some {| f_pre := []; f_word := firstn (length s - length s') s;
                    f_caps := cs; f_rest := s' |}).

(** [re.search]: the leftmost position with a match. *)
Fixpoint search_from (r : re) (s : text) (must_advance : bool)
    : option found :=
  match match_here r s must_advance with
  | Some f => Some f
  | None =>
      match s with
      | [] => None
      | a :: s' =>
          match search_from r s' false with
          | Some f =>
              Some {| f_pre := a :: f_pre f; f_word := f_word f;
                      f_caps := f_caps f; f_rest := f_rest f |}
          | None => None
          end
      end
  end.

(** *** Substitution templates and [re.subn] *)

Inductive titem : Type :=
  | TLit (c : ascii)
  | TRef (n : nat).

Definition digit_of (a : ascii) : option nat :=
  let n := nat_of_ascii a in
  if (48 <=? n) && (n <=? 57) then Some (n - 48) else None.

(** A backslash followed by one digit is a group reference; other
    escapes are outside the fragment. *)
Fixpoint parse_template (s : text) : option (list titem) :=
  match s with
  | [] => Some []
  | a :: s' =>
      if Ascii.eqb a "\"%char then
        match s' with
        | d :: s'' =>
            match digit_of d, s'' with
            | Some 0, _ => None
            | Some g, [] => Some [TRef g]
            | Some g, e :: _ =>
                match digit_of e with
                | Some _ => None
                | None => option_map (cons (TRef g)) (parse_template s'')
                end
            | None, _ => None
            end
        | [] => None
        end
      else option_map (cons (TLit a)) (parse_template s')
  end.

Fixpoint group (cs : caps) (n : nat) : option text :=
  match cs with
  | [] => None
  | (g, w) :: cs' => if g =? n then Some w else group cs' n
  end.

(** A reference to a group the pattern does not have is an error; a
    group that took no part in the match expands to nothing. *)
Fixpoint expand (t : list titem) (groups : nat) (cs : caps) : option text :=
  match t with
  | [] => Some []
  | TLit c :: t' => option_map (cons c) (expand t' groups cs)
  | TRef n :: t' =>
      if n <=? groups then
        option_map (app (default [] (group cs n))) (expand t' groups cs)
      else None
  end.

(** The loop of [re.subn]: replace the leftmost match, go on after it;
    after an empty match the next one has to advance.  Every round
    consumes a character or sets [must_advance], so twice the length of
    the text (and two) rounds are enough. *)
Fixpoint subn_loop (fuel : nat) (p : pattern) (t : list titem) (s : text)
    (must_advance : bool) : option (text * nat) :=
  match fuel with
  | 0 => None
  | S fuel' =>
      match search_from (p_re p) s must_advance with
      | None => Some (s, 0)
      | Some f =>
          match expand t (p_groups p) (f_caps f) with
          | None => None
          | Some out =>
              match subn_loop fuel' p t (f_rest f)
                      (length (f_word f) =? 0) with
              | Some (tl, k) => Some (f_pre f ++ out ++ tl, S k)
              | None => None
              end
          end
      end
  end.

Definition subn (p : pattern) (t : list titem) (s : text)
    : option (text * nat) :=
  subn_loop (2 * length s + 2) p t s false.


(** *** The language of a pattern *)

(** [matches r w cs cs']: the word [w] is in the language of [r], and a
    match of it turns the captures [cs] into [cs']. *)
Inductive matches : re -> text -> caps -> caps -> Prop :=
  | M_eps cs : matches Eps [] cs cs
  | M_chr c a cs : cls_ok c a = true -> matches (Chr c) [a] cs cs
  | M_plus c w cs :
      w <> [] -> Forall (fun a => cls_ok c a = true) w ->
      matches (Plus c) w cs cs
  | M_grp n r w cs cs' :
      matches r w cs cs' -> matches (Grp n r) w cs ((n, w) :: cs')
  | M_cat r1 r2 w1 w2 cs cs1 cs2 :
      matches r1 w1 cs cs1 -> matches r2 w2 cs1 cs2 ->
      matches (Cat r1 r2) (w1 ++ w2) cs cs2.

(** *** Counting a character

    A literal of the pattern has to be found in the text: a text with
    fewer occurrences of a character than the pattern has literals of it
    is not matched, and when the two numbers agree nothing is left over
    for the groups or for the text around the match. *)

Definition count (a : ascii) (w : text) : nat := count_occ ascii_dec w a.

Definition lit_of (a : ascii) (c : cls) : nat :=
  match c with
  | CLit x => if Ascii.eqb x a then 1 else 0
  | _ => 0
  end.

Fixpoint lits (a : ascii) (r : re) : nat :=
  match r with
  | Eps => 0
  | Chr c | Plus c => lit_of a c
  | Grp _ r' => lits a r'
  | Cat r1 r2 => lits a r1 + lits a r2
  end.

(** No group of [r] has a literal [a] in it. *)
Fixpoint groups_free (a : ascii) (r : re) : Prop :=
  match r with
  | Grp _ r' => lits a r' = 0 /\ groups_free a r'
  | Cat r1 r2 => groups_free a r1 /\ groups_free a r2
  | _ => True
  end.

Fixpoint tcount (a : ascii) (t : list titem) : nat :=
  match t with
  | [] => 0
  | TLit c :: t' => (if Ascii.eqb c a then 1 else 0) + tcount a t'
  | TRef _ :: t' => tcount a t'
  end.

End Re.

(** ** The configuration block: [PARAMS] and [DATADIR] *)

Module Config.

(** The values a parameter read from [pipeline.yml] can have: the
    scalars of YAML and, as [VOther], every other object (a list, a
    mapping, a date), which equals no number and is no string. *)
Inductive pyval : Type :=
  | VInt (n : Z)
  | VBool (b : bool)
  | VFloat (x : spec_float)
  | VStr (s : string)
  | VNone
  | VOther.

(** [x == n] for a float [x] and an integer [n].  A float is a zero, an
    infinity, a NaN or the finite number [m * 2 ^ e] with its sign.
    Python compares the two exactly: [x] is finite, its value is an
    integer and that integer is [n]. *)
Definition float_eq_int (x : spec_float) (n : Z) : bool :=
  match x with
  | S754_zero _ => Z.eqb n 0
  | S754_finite s m e =>
      let v := if s then Z.neg m else Z.pos m in
      if (0 <=? e)%Z then Z.eqb n (v * 2 ^ e)
      else Z.eqb (v mod 2 ^ (- e)) 0 && Z.eqb n (v / 2 ^ (- e))
  | S754_infinity _ | S754_nan => false
  end.

(** [v == n] for an integer literal [n]: [bool] is a subclass of [int],
    a float is compared by its value, strings, [None] and the other
    objects are equal to no integer. *)
Definition eq_int (v : pyval) (n : Z) : bool :=
  match v with
  | VInt k => Z.eqb k n
  | VBool b => Z.eqb (if b then 1 else 0) n
  | VFloat x => float_eq_int x n
  | VStr _ | VNone | VOther => false
  end.

Inductive exn : Type :=
  | KeyError (arg : string)
  | NameError (name : string).

Inductive result (A : Type) : Type :=
  | Ok (a : A)
  | Raise (e : exn).
Arguments Ok {A} a.
Arguments Raise {A} e.

(** An exception ends the statements that follow. *)
#[global] Instance result_bind : MBind result := fun A B f x =>
  match x with
  | Ok a => f a
  | Raise e => Raise e
  end.

(** [PARAMS[key]].  The [PARAMS] that [P.get_parameters] returns on
    line 62 is cgatcore's: a [defaultdict] whose factory,
    [TriggeredDefaultFactory], is switched by [get_parameters] itself.
    When the module is only imported ([only_import]: its [__name__] is
    not ["__main__"], or a test is running) a missing key is given the
    empty string, which the [defaultdict] also stores; when the module
    is run as the main program the factory raises
    [KeyError("missing parameter accessed")].  The result is the value
    and [PARAMS] as the subscript leaves it. *)
Definition getitem (only_import : bool) (PARAMS : gmap string pyval)
    (key : string) : result (pyval * gmap string pyval) :=
  match PARAMS !! key with
  | Some v => Ok (v, PARAMS)
  | None =>
      if only_import then Ok (VStr "", <[key := VStr ""]> PARAMS)
      else Raise (KeyError "missing parameter accessed")
  end.

Definition is_NameError (e : exn) : bool :=
  match e with
  | NameError _ => true
  | KeyError _ => false
  end.

(** [try: body / except <catches>: handler / else: orelse]; [orelse]
    goes on from where [body] ended. *)
Definition try_except_else {A B} (body : result A) (catches : exn -> bool)
    (handler : result B) (orelse : A -> result B) : result B :=
  match body with
  | Ok a => orelse a
  | Raise e => if catches e then handler else Raise e
  end.

(** Lines 69-79: the value of [DATADIR], and [PARAMS] after the block.
    [PARAMS] is bound on line 62, so the only exception the [try] body
    can raise is the one of the subscript. *)
Definition DATADIR (only_import : bool) (PARAMS : gmap string pyval)
    : result (pyval * gmap string pyval) :=
  try_except_else (getitem only_import PARAMS "data") is_NameError
    (Ok (VStr ".", PARAMS))
    (fun '(_, PARAMS) =>
       '(v0, PARAMS) ← getitem only_import PARAMS "data";
       if eq_int v0 0 then Ok (VStr ".", PARAMS)
       else
         '(v1, PARAMS) ← getitem only_import PARAMS "data";
         if eq_int v1 1 then Ok (VStr "data.dir", PARAMS)
         else getitem only_import PARAMS "data").

End Config.

(** ** The task declarations *)

Module Pipeline.
Import Re.

(** [posixpath.join] of two components: an absolute second component
    replaces the first; otherwise a separator is put between the two
    unless the first is empty or ends with one. *)
Definition starts_with_sep (b : text) : bool :=
  match b with
  | c :: _ => Ascii.eqb c "/"%char
  | [] => false
  end.

Definition ends_with_sep (a : text) : bool :=
  match last a with
  | Some c => Ascii.eqb c "/"%char
  | None => false
  end.

Definition os_path_join (a b : text) : text :=
  if starts_with_sep b then b
  else if (length a =? 0) || ends_with_sep a then a ++ b
  else a ++ "/"%char :: b.

(** Lines 82-85. *)
Definition SEQUENCESUFFIXES : list string := ["*.fastq.gz"; "*.fastq.1.gz"].

Definition SEQUENCEFILES (DATADIR : string) : list text :=
  map (fun suffix_name => os_path_join (of_string DATADIR)
                            (of_string suffix_name))
      SEQUENCESUFFIXES.

(** [posixpath.split]: what stands before the last separator, without
    the separators it ends with unless it has nothing else, and what
    stands after it.  The work is done on the reversed path. *)
Fixpoint last_component (r : text) : text * text :=
  match r with
  | [] => ([], [])
  | a :: r' =>
      if Ascii.eqb a "/"%char then ([], r)
      else let '(tail, head) := last_component r' in (a :: tail, head)
  end.

Fixpoint drop_seps (r : text) : text :=
  match r with
  | [] => []
  | a :: r' => if Ascii.eqb a "/"%char then drop_seps r' else r
  end.

Definition os_path_split (p : text) : text * text :=
  let '(tail, head) := last_component (rev p) in
  (match drop_seps head with
   | [] => rev head
   | stripped => rev stripped
   end,
   rev tail).

(** *** Globbing the input files

    ruffus expands the glob patterns of [SEQUENCEFILES].  Their directory
    part has no wildcard, so [glob] lists that directory, keeps the names
    that match the last component and joins each with the directory.

    The paths come in the order of the listing.  ruffus sorts what
    [glob.glob] returns, and sorts the inputs of a task again: the
    order of the lists below is not the order in which ruffus makes its
    jobs, and what is proved of the workflow is which jobs there are,
    not where in the list they stand. *)

Fixpoint ends_with (suffix w : text) : bool :=
  if decide (w = suffix) then true
  else match w with
       | [] => false
       | _ :: w' => ends_with suffix w'
       end.

(** [fnmatch] of a name against a pattern [*suffix]; a name that starts
    with a dot is hidden from a pattern that does not. *)
Definition star_match (pat name : text) : bool :=
  match pat, name with
  | "*"%char :: suffix, c :: _ =>
      negb (Ascii.eqb c "."%char) && ends_with suffix name
  | _, _ => false
  end.

(** [glob.glob(pathname)], given the [names] in the directory that
    [pathname] points into. *)
Definition glob (names : list text) (pathname : text) : list text :=
  let '(dirname, basename) := os_path_split pathname in
  map (os_path_join dirname) (List.filter (star_match basename) names).

Definition input_files (DATADIR : string) (names : list text) : list text :=
  concat (map (glob names) (SEQUENCEFILES DATADIR)).

(** *** [@transform] and [@merge] *)

Record job : Type := { j_inputs : list text; j_output : text }.

(** [@transform(inputs, regex(pat), tmpl)]: one job for every input that
    the pattern matches somewhere, its output being the input with every
    match replaced by the template; an input without a match is left
    out.  The jobs are listed in the order of [inputs] (ruffus makes
    them in the order of the sorted paths).  [None]: the pattern or the
    template is not of the fragment. *)
Definition transform (inputs : list text) (pat tmpl : string)
    : option (list job) :=
  match compile pat, parse_template (of_string tmpl) with
  | Some p, Some t =>
      Some (concat (map (fun i =>
              match subn p t i with
              | Some (out, S _) => [{| j_inputs := [i]; j_output := out |}]
              | _ => []
              end) inputs))
  | _, _ => None
  end.

(** Whether [re.search(pat, path)] finds a match, and what a group of
    the leftmost match holds. *)
Definition matched (pat : string) (path : text) : bool :=
  match compile pat with
  | Some p =>
      match search_from (p_re p) path false with
      | Some _ => true
      | None => false
      end
  | None => false
  end.

Definition capture (pat : string) (n : nat) (path : text) : option text :=
  match compile pat with
  | Some p =>
      match search_from (p_re p) path false with
      | Some f => group (f_caps f) n
      | None => None
      end
  | None => None
  end.

(** [@merge(inputs, output)]: one job that takes all the inputs, here in
    the order in which they are given. *)
Definition merge (inputs : list text) (output : string) : list job :=
  [{| j_inputs := inputs; j_output := of_string output |}].

Definition outputs (jobs : list job) : list text := map j_output jobs.

(** Lines 87-90.  The pattern is ["{}/(\S+).fastq.gz".format(DATADIR)]. *)
Definition run_mapping_regex (DATADIR : string) : string :=
  DATADIR ++ "/(\S+).fastq.gz".

Definition run_mapping_on (DATADIR : string) (files : list text)
    : option (list job) :=
  transform files (run_mapping_regex DATADIR) "mapped.dir/\1_sorted.bam".

Definition run_mapping (DATADIR : string) (names : list text)
    : option (list job) :=
  run_mapping_on DATADIR (input_files DATADIR names).

(** Lines 106-109. *)
Definition run_clair3_regex : string := "mapped.dir/(\S+)_sorted.bam".

Definition run_clair3 (mapped : list job) : option (list job) :=
  transform (outputs mapped)
    run_clair3_regex "Clair.dir/\1/full_alignment.vcf.gz".

(** The sample names: what group 1 of the pattern of [run_clair3]
    captures in the outputs of [run_mapping], and the template then
    writes between [Clair.dir/] and [/full_alignment.vcf.gz]. *)
Definition sample_names (mapped : list job) : list text :=
  flat_map (fun o => match capture run_clair3_regex 1 o with
                     | Some s => [s]
                     | None => []
                     end)
           (outputs mapped).

(** Lines 120-123. *)
Definition filter_variants_regex : string :=
  "Clair.dir/(\S+)/full_alignment.vcf.gz/pileup.vcf.gz".

Definition filter_variants (called : list job) : option (list job) :=
  transform (outputs called)
    filter_variants_regex "filtered_vcf.dir/\1_Qual30_full_alignment.vcf.gz".

(** Lines 132-135. *)
Definition run_sniffles (mapped : list job) : option (list job) :=
  transform (outputs mapped)
    "mapped.dir/(\S+)_sorted.bam" "Sniffles.dir/\1/output.snf".

(** Lines 148-149. *)
Definition merge_sniffles (sniffles : list job) : list job :=
  merge (outputs sniffles) "Sniffles.dir/merged.vcf.gz".

(** Lines 160-162. *)
Definition merge_sniffles_variants (sniffles : list job)
    : option (list job) :=
  transform (outputs sniffles)
    "Sniffles.dir/(\S+)/output.snf"
    "filtered_vcf.dir/\1_sniffles_Qual30_output.vcf.gz".

(** Lines 173-176. *)
Definition mosdepth (mapped : list job) : option (list job) :=
  transform (outputs mapped)
    "mapped.dir/(\S+)_sorted.bam" "coverage.dir/\1.mosdepth.summary.txt".

(** Lines 187-189. *)
Definition run_bamcoverage (mapped : list job) : option (list job) :=
  transform (outputs mapped)
    "mapped.dir/(\S+)_sorted.bam" "mapped.dir/\1.bw".

(** *** Directory and sample names

    [DATADIR] is pasted into the pattern of [run_mapping] unescaped.  A
    directory name is [plain] when none of its characters has a meaning
    in a pattern, except for the dot, which then stands for any
    character. *)

Definition plain_char (a : ascii) : bool :=
  Ascii.eqb a "."%char || negb (is_meta a).

Definition plain (d : string) : bool := forallb plain_char (of_string d).

(** A sample name without whitespace: [\S+] can take all of it. *)
Definition nonspace (w : text) : Prop :=
  Forall (fun a => cls_ok CNonSpace a = true) w.

End Pipeline.

(** ** The scheduler loop *)

Module Scheduler.
Import Re Pipeline.

(** The engine that runs the task declarations is ruffus, under
    cgatcore; its scheduler is not part of the repository, whose source
    only declares the tasks.  What follows is the state machine of
    sections 4.4 and 4.5 of the specification, in its words, over the
    jobs that the declarations of the repository create. *)

(** Modelled from the spec: why an instance failed (section 4.5); the
    scheduler that records it is missing from the repository. *)
Inductive reason : Type :=
  | NonZeroExit
  | BlockedByUpstreamFailure.

(** Modelled from the spec: the lifecycle states of a Task Instance
    (sections 3 and 4.5); the scheduler is missing from the repository. *)
Inductive lifecycle : Type :=
  | Pending
  | Ready
  | Running
  | Succeeded
  | Failed (why : reason)
  | Skipped.

#[global] Instance reason_eq_dec : EqDecision reason.
Proof. solve_decision. Defined.

#[global] Instance lifecycle_eq_dec : EqDecision lifecycle.
Proof. solve_decision. Defined.

(** The Run State: the lifecycle state of every instance, by position. *)
Abbreviation run_state := (list lifecycle).

Definition text_eqb (a b : text) : bool := bool_decide (a = b).

(** Modelled from the spec: what the Scheduler Loop (section 4.5) does
    to one instance at a time; the loop is missing from the repository. *)
Inductive event : Type :=
  | Promote (i : nat)
  | Skip (i : nat)
  | Dispatch (i : nat)
  | Complete (i : nat) (ok : bool)
  | Block (i : nat).

Definition done_ok (s : option lifecycle) : bool :=
  match s with
  | Some Succeeded | Some Skipped => true
  | _ => false
  end.

Definition has_failed (s : option lifecycle) : bool :=
  match s with
  | Some (Failed _) => true
  | _ => false
  end.

Definition is_running (s : lifecycle) : bool :=
  match s with
  | Running => true
  | _ => false
  end.

Definition terminal (s : lifecycle) : bool :=
  match s with
  | Succeeded | Failed _ | Skipped => true
  | _ => false
  end.

(** The number of instances in flight. *)
Definition running (st : run_state) : nat :=
  length (List.filter is_running st).

Definition in_state (st : run_state) (i : nat) (s : lifecycle) : bool :=
  bool_decide (st !! i = Some s).

Section Graph.

(** The instances. *)
Variable jobs : list job.

(** Modelled from the spec: a Dependency Edge (section 3), inferred from
    the paths: instance [i] consumes the output of instance [u].  The
    graph builder is missing from the repository. *)
Definition consumes (i u : nat) : bool :=
  match jobs !! i, jobs !! u with
  | Some ji, Some ju => existsb (text_eqb (j_output ju)) (j_inputs ji)
  | _, _ => false
  end.

Definition preds (i : nat) : list nat :=
  List.filter (consumes i) (seq 0 (length jobs)).

Definition preds_done (i : nat) (st : run_state) : bool :=
  forallb (fun u => done_ok (st !! u)) (preds i).

Definition pred_failed (i : nat) (st : run_state) : bool :=
  existsb (fun u => has_failed (st !! u)) (preds i).

(** Modelled from the spec: a run starts with every instance pending. *)
Definition init : run_state := replicate (length jobs) Pending.

End Graph.

Section Run.

(** The instances, the verdict of the Staleness Checker and the
    configured limit of concurrent local processes. *)
Variable jobs : list job.
Variable is_stale : nat -> run_state -> bool.
Variable limit : nat.

(** Modelled from the spec: one step of the Scheduler Loop with the
    Executor's limit (sections 4.4 and 4.5), which are missing from the
    repository; [None] when the step is not enabled.
    - [pending -> ready]: every predecessor succeeded or skipped, and
      the instance is stale;
    - [pending -> skipped]: the same, and the instance is not stale;
    - [ready -> running]: dispatch, while fewer than [limit] instances
      are in flight;
    - [running -> succeeded | failed]: the action ended;
    - failure propagation: a pending instance with a failed predecessor
      is marked failed, blocked by upstream failure, without execution. *)
Definition fire (e : event) (st : run_state) : option run_state :=
  match e with
  | Promote i =>
      if in_state st i Pending && preds_done jobs i st && is_stale i st
      then Some (<[i := Ready]> st) else None
  | Skip i =>
      if in_state st i Pending && preds_done jobs i st && negb (is_stale i st)
      then Some (<[i := Skipped]> st) else None
  | Dispatch i =>
      if in_state st i Ready && (running st <? limit)
      then Some (<[i := Running]> st) else None
  | Complete i ok =>
      if in_state st i Running
      then Some (<[i := if ok then Succeeded else Failed NonZeroExit]> st)
      else None
  | Block i =>
      if in_state st i Pending && pred_failed jobs i st
      then Some (<[i := Failed BlockedByUpstreamFailure]> st) else None
  end.

(** Modelled from the spec: a run is a sequence of steps, in any order
    in which each is enabled. *)
Fixpoint play (es : list event) (st : run_state) : option run_state :=
  match es with
  | [] => Some st
  | e :: es' =>
      match fire e st with
      | Some st' => play es' st'
      | None => None
      end
  end.

(** The transitions of one instance, with their guards. *)
Inductive transition (st : run_state) (i : nat)
    : lifecycle -> lifecycle -> Prop :=
  | t_promote :
      preds_done jobs i st = true -> is_stale i st = true ->
      transition st i Pending Ready
  | t_skip :
      preds_done jobs i st = true -> is_stale i st = false ->
      transition st i Pending Skipped
  | t_dispatch : running st < limit -> transition st i Ready Running
  | t_succeed : transition st i Running Succeeded
  | t_fail : transition st i Running (Failed NonZeroExit)
  | t_block :
      pred_failed jobs i st = true ->
      transition st i Pending (Failed BlockedByUpstreamFailure).

End Run.

(** An instance that left [pending] other than by failure propagation. *)
Definition started (s : lifecycle) : bool :=
  match s with
  | Pending | Failed BlockedByUpstreamFailure => false
  | _ => true
  end.

End Scheduler.

(** ** Two small runs *)

Module Runs.
Import Re Pipeline Scheduler.

(** Three Sniffles instances. *)
Definition three_sniffles : list job :=
  [ {| j_inputs := [of_string "mapped.dir/a_sorted.bam"];
       j_output := of_string "Sniffles.dir/a/output.snf" |};
    {| j_inputs := [of_string "mapped.dir/b_sorted.bam"];
       j_output := of_string "Sniffles.dir/b/output.snf" |};
    {| j_inputs := [of_string "mapped.dir/c_sorted.bam"];
       j_output := of_string "Sniffles.dir/c/output.snf" |} ].

(** Three upstream instances and the merge instance, which is promoted
    once the three have run. *)
Definition three_then_merge : list event :=
  [ Promote 0; Promote 1; Promote 2;
    Dispatch 0; Dispatch 1; Complete 0 true; Dispatch 2;
    Complete 2 true; Complete 1 true; Promote 3 ].

(** Five instances that do not depend on one another. *)
Definition five_independent : list job :=
  map (fun name =>
         {| j_inputs := [of_string "mapped.dir/" ++ name
                         ++ of_string "_sorted.bam"];
            j_output := of_string "mapped.dir/" ++ name
                        ++ of_string ".bw" |})
      [of_string "a"; of_string "b"; of_string "c"; of_string "d";
       of_string "e"].

Definition five_ready_two_dispatched : list event :=
  [ Promote 0; Promote 1; Promote 2; Promote 3; Promote 4;
    Dispatch 0; Dispatch 1 ].

End Runs.

(** ** The bodies of the tasks *)

Module Body.
Import Re Pipeline.

(** *** The string methods the bodies call *)

(** [s.startswith(p)]. *)
Fixpoint is_prefix (p s : text) : bool :=
  match p, s with
  | [], _ => true
  | a :: p', b :: s' => Ascii.eqb a b && is_prefix p' s'
  | _ :: _, [] => false
  end.

(** [old in s]. *)
Fixpoint occurs (old s : text) : bool :=
  is_prefix old s
  || match s with
     | [] => false
     | _ :: s' => occurs old s'
     end.

(** [s.replace(old, new)] scans [s] from the left and replaces every
    occurrence of [old] that does not overlap the one replaced before
    it.  [skip] is the number of characters of the current occurrence
    that are still to be passed over. *)
Fixpoint replace_from (old new : text) (skip : nat) (s : text) : text :=
  match s with
  | [] => []
  | a :: s' =>
      match skip with
      | S k => replace_from old new k s'
      | 0 =>
          if is_prefix old s
          then new ++ replace_from old new (length old - 1) s'
          else a :: replace_from old new 0 s'
      end
  end.

(** An empty [old] occurs before every character and at the end. *)
Definition str_replace (s old new : text) : text :=
  match old with
  | [] => new ++ flat_map (fun a => a :: new) s
  | _ :: _ => replace_from old new 0 s
  end.

(** [sep.join(l)]. *)
Fixpoint str_join (sep : text) (l : list text) : text :=
  match l with
  | [] => []
  | x :: l' =>
      match l' with
      | [] => x
      | _ :: _ => x ++ sep ++ str_join sep l'
      end
  end.

(** [s.split(sep)] for a separator of one character. *)
Fixpoint str_split (sep : ascii) (s : text) : list text :=
  match s with
  | [] => [[]]
  | a :: s' =>
      if Ascii.eqb a sep then [] :: str_split sep s'
      else match str_split sep s' with
           | w :: ws => (a :: w) :: ws
           | [] => [[a]]
           end
  end.

(** [os.path.dirname]. *)
Definition os_path_dirname (p : text) : text := fst (os_path_split p).

(** *** The local variables of each body

    Every body computes the paths that its command line names from
    [infile] and [outfile], and hands the command to [P.run]. *)

(** [run_mapping], lines 94-95. *)
Record run_mapping_locals : Type :=
  { tmp : text; bamfile : text }.

Definition run_mapping_body (infile outfile : text) : run_mapping_locals :=
  let tmp := str_replace outfile (of_string "_sorted.bam") (of_string ".sam") in
  let bamfile := str_replace tmp (of_string ".sam") (of_string ".bam") in
  {| tmp := tmp; bamfile := bamfile |}.

(** [run_clair3], line 113. *)
Definition run_clair3_outfile_path (infile outfile : text) : text :=
  str_replace outfile (of_string "/tmp.txt") (of_string "").

(** [run_sniffles], lines 139-141. *)
Record run_sniffles_locals : Type :=
  { outfile_path : text; vcf_file : text; log : text }.

Definition run_sniffles_body (infile outfile : text) : run_sniffles_locals :=
  {| outfile_path := str_replace outfile (of_string "/tmp.txt") (of_string "");
     vcf_file := str_replace outfile (of_string ".snf") (of_string ".vcf");
     log := outfile ++ of_string ".log" |}.

(** [merge_sniffles], line 153: [infiles] is bound again, to one string. *)
Definition merge_sniffles_infiles (infiles : list text) (outfile : text)
    : text :=
  str_join (of_string " ") infiles.

(** [merge_sniffles_variants], line 166: [infile] is bound again. *)
Definition merge_sniffles_variants_infile (infile outfile : text) : text :=
  str_replace infile (of_string ".snf") (of_string ".vcf").

(** [mosdepth], line 180. *)
Definition mosdepth_name (infile outfile : text) : text :=
  str_replace outfile (of_string ".mosdepth.summary.txt") (of_string "").

(** *** Markers and names *)

(** No proper suffix of [old] is a prefix of it: two occurrences of
    [old] cannot overlap. *)
Definition borderless (old : text) : bool :=
  forallb (fun k => negb (is_prefix (skipn k old) old))
          (seq 1 (length old - 1)).

(** A character of a usual file name: no whitespace, no separator. *)
Definition usual_char (a : ascii) : bool :=
  cls_ok CNonSpace a && negb (Ascii.eqb a "/"%char).

End Body.

(** ** The tasks and what they follow *)

Module Tasks.

(** The decorated functions of the module, in the order of the source. *)
Inductive task : Type :=
  | run_mapping
  | run_clair3
  | filter_variants
  | run_sniffles
  | merge_sniffles
  | merge_sniffles_variants
  | mosdepth
  | run_bamcoverage
  | full.

#[global] Instance task_eq_dec : EqDecision task.
Proof. solve_decision. Defined.

Definition all_tasks : list task :=
  [ run_mapping; run_clair3; filter_variants; run_sniffles; merge_sniffles;
    merge_sniffles_variants; mosdepth; run_bamcoverage; full ].

(** The tasks a task is declared on: the task whose outputs an
    [@transform] or [@merge] takes as inputs, and the tasks named by
    [@follows].  [run_mapping] takes the glob patterns of
    [SEQUENCEFILES], which are no task. *)
Definition upstream (t : task) : list task :=
  match t with
  | run_mapping => []
  | run_clair3 => [run_mapping]
  | filter_variants => [run_clair3]
  | run_sniffles => [run_mapping]
  | merge_sniffles => [run_sniffles]
  | merge_sniffles_variants => [run_sniffles]
  | mosdepth => [run_mapping]
  | run_bamcoverage => [run_mapping]
  | full => [mosdepth; merge_sniffles_variants; filter_variants;
             run_bamcoverage]
  end.

(** The directories of [@follows(mkdir(...))]: made before the task
    runs. *)
Definition mkdir (t : task) : list string :=
  match t with
  | run_mapping => ["mapped.dir"]
  | run_clair3 => ["Clair.dir"]
  | filter_variants => ["filtered_vcf.dir"]
  | run_sniffles => ["Sniffles.dir"]
  | mosdepth => ["coverage.dir"]
  | merge_sniffles | merge_sniffles_variants | run_bamcoverage | full => []
  end.

(** [needs t u]: to bring [t] up to date the engine has to consider [u],
    that is [u] is [t] or is upstream of a task that [t] needs. *)
Inductive needs (t : task) : task -> Prop :=
  | needs_refl : needs t t
  | needs_step u v : needs t u -> In v (upstream u) -> needs t v.

(** The same, computed: the tasks reached from [t] in at most [fuel]
    steps upstream. *)
Fixpoint reach (fuel : nat) (t : task) : list task :=
  match fuel with
  | 0 => [t]
  | S fuel' => t :: flat_map (reach fuel') (upstream t)
  end.

Definition needed (t u : task) : bool :=
  bool_decide (u ∈ reach (length all_tasks) t).

(** The directories that the declarations have made before [t] runs:
    those of its own [mkdir] and of the [mkdir] of the tasks it
    needs. *)
Definition made_before (t : task) : list string :=
  flat_map mkdir (reach (length all_tasks) t).

End Tasks.

(** ** The jobs of the whole workflow *)

Module Workflow.
Import Re Pipeline.

(** The jobs of every task, for the [names] that the directory
    [DATADIR] holds: each task takes the outputs of the jobs of the task
    it is declared on.  [full] names no file. *)
Definition jobs (DATADIR : string) (names : list text) (t : Tasks.task)
    : option (list job) :=
  let mapped : option (list job) := run_mapping DATADIR names in
  let called : option (list job) := mapped ≫= run_clair3 in
  let sniffles : option (list job) := mapped ≫= run_sniffles in
  match t with
  | Tasks.run_mapping => mapped
  | Tasks.run_clair3 => called
  | Tasks.filter_variants => called ≫= filter_variants
  | Tasks.run_sniffles => sniffles
  | Tasks.merge_sniffles => merge_sniffles <$> sniffles
  | Tasks.merge_sniffles_variants => sniffles ≫= merge_sniffles_variants
  | Tasks.mosdepth => mapped ≫= mosdepth
  | Tasks.run_bamcoverage => mapped ≫= run_bamcoverage
  | Tasks.full => Some []
  end.

(** The samples of a directory: the names that [*.fastq.gz] lists,
    without their last nine characters, [.fastq.gz]. *)
Definition fastq_gz (names : list text) : list text :=
  List.filter (star_match (of_string "*.fastq.gz")) names.

Definition sample (file : text) : text := firstn (length file - 9) file.

Definition samples (names : list text) : list text :=
  map sample (fastq_gz names).

(** A directory as the workflow expects it: no name has whitespace or a
    separator in it, and no name is listed by [*.fastq.1.gz]. *)
Definition tidy (names : list text) : bool :=
  forallb (fun f => forallb Body.usual_char f
                    && negb (star_match (of_string "*.fastq.1.gz") f))
          names.

(** A directory name that [os.path.join] puts a separator after. *)
Definition joinable (DATADIR : string) : bool :=
  negb (length (of_string DATADIR) =? 0)
  && negb (ends_with_sep (of_string DATADIR)).

End Workflow.

(** ** Loading the module: lines 62-85 *)

Module Init.
Import Re Pipeline.

(** What can end the loading of the module before the tasks are
    declared: an exception of the configuration block, or the
    [TypeError] of [os.path.join] for a first argument that is no
    string. *)
Inductive error : Type :=
  | Block (e : Config.exn)
  | TypeError.

(** Lines 69-85: [DATADIR], then [SEQUENCEFILES]; the value of
    [SEQUENCEFILES], or what ended the loading. *)
Definition load (only_import : bool) (PARAMS : gmap string Config.pyval)
    : error + list text :=
  match Config.DATADIR only_import PARAMS with
  | Config.Raise e => inl (Block e)
  | Config.Ok (Config.VStr DATADIR, _) =>
      inr (Pipeline.SEQUENCEFILES DATADIR)
  | Config.Ok _ => inl TypeError
  end.

End Init.

(** * Facts about the embedding *)

(** ** The matcher against the language of a pattern *)

Module ReFacts.
Import Re.

Lemma firstn_consumed (w s' : text) :
  firstn (length (w ++ s') - length s') (w ++ s') = w.
Proof.
  rewrite length_app.
  replace (length w + length s' - length s') with (length w) by lia.
  rewrite firstn_app, Nat.sub_diag, firstn_all. simpl. apply app_nil_r.
Qed.

Lemma plus_greedy_sound {A} c s (k : text -> option A) x :
  plus_greedy c s k = Some x ->
  exists w s', s = w ++ s' /\ w <> [] /\
    Forall (fun a => cls_ok c a = true) w /\ k s' = Some x.
Proof.
  induction s as [|a s IH]; simpl; [discriminate|].
  destruct (cls_ok c a) eqn:Ha; [|discriminate].
  destruct (plus_greedy c s k) as [y|] eqn:Hrec.
  - intros [= ->]. destruct (IH eq_refl) as (w & s' & -> & _ & Hall & Hk).
    exists (a :: w), s'. repeat split; auto; discriminate.
  - intros Hk. exists [a], s. repeat split; auto; discriminate.
Qed.

Lemma m_sound {A} r : forall s cs (k : text -> caps -> option A) x,
  m r s cs k = Some x ->
  exists w s' cs', s = w ++ s' /\ matches r w cs cs' /\ k s' cs' = Some x.
Proof.
  induction r as [|c|c|n r IH|r1 IH1 r2 IH2]; simpl; intros s cs k x H.
  - exists [], s, cs. repeat split; auto. constructor.
  - destruct s as [|a s]; [discriminate|].
    destruct (cls_ok c a) eqn:Ha; [|discriminate].
    exists [a], s, cs. repeat split; auto. now constructor.
  - apply plus_greedy_sound in H as (w & s' & -> & Hne & Hall & Hk).
    exists w, s', cs. repeat split; auto. now constructor.
  - apply IH in H as (w & s' & cs' & -> & Hm & Hk).
    rewrite firstn_consumed in Hk.
    exists w, s', ((n, w) :: cs'). repeat split; auto. now constructor.
  - apply IH1 in H as (w1 & s1 & cs1 & -> & Hm1 & H).
    apply IH2 in H as (w2 & s2 & cs2 & -> & Hm2 & Hk).
    exists (w1 ++ w2), s2, cs2. rewrite <- app_assoc. repeat split; auto.
    econstructor; eauto.
Qed.

Lemma plus_greedy_complete {A} c w s' (k : text -> option A) :
  w <> [] -> Forall (fun a => cls_ok c a = true) w -> is_Some (k s') ->
  is_Some (plus_greedy c (w ++ s') k).
Proof.
  induction w as [|a w IH]; [congruence|]. intros _ Hall Hk.
  inversion Hall as [|? ? Ha Hall']; subst.
  cbn [app plus_greedy]. rewrite Ha.
  destruct (plus_greedy c (w ++ s') k) as [y|] eqn:Hrec; [eexists; eauto|].
  destruct w as [|b w]; [exact Hk|].
  destruct IH as [y Hy]; auto; try discriminate; congruence.
Qed.

(** Whenever some word of the language can be followed by a successful
    continuation, the matcher finds a match (possibly a longer one). *)
Lemma m_complete {A} r w c0 c1 :
  matches r w c0 c1 ->
  forall s' cs (k : text -> caps -> option A),
    (forall cs', is_Some (k s' cs')) -> is_Some (m r (w ++ s') cs k).
Proof.
  induction 1 as [cs0|c a cs0 Ha|c w cs0 Hne Hall|n r w cs0 cs1 Hm IH
                 |r1 r2 w1 w2 cs0 cs1 cs2 Hm1 IH1 Hm2 IH2];
    intros s' cs k Hk; simpl.
  - apply Hk.
  - rewrite Ha. apply Hk.
  - apply plus_greedy_complete; auto.
  - apply IH. intros cs'. apply Hk.
  - rewrite <- app_assoc. apply IH1. intros cs'. apply IH2, Hk.
Qed.

Lemma match_here_sound r s adv f :
  match_here r s adv = Some f ->
  f_pre f = [] /\ s = f_word f ++ f_rest f /\
  matches r (f_word f) [] (f_caps f) /\
  (adv = true -> f_word f <> []).
Proof.
  unfold match_here. intros H.
  apply m_sound in H as (w & s' & cs' & -> & Hm & Hk).
  rewrite firstn_consumed in Hk.
  destruct (adv && (length s' =? length (w ++ s'))) eqn:Hadv;
    [discriminate|].
  injection Hk as <-. simpl. repeat split; auto.
  intros -> ->. simpl in Hadv. now rewrite Nat.eqb_refl in Hadv.
Qed.

Lemma search_from_sound r : forall s adv f,
  search_from r s adv = Some f ->
  s = f_pre f ++ f_word f ++ f_rest f /\ matches r (f_word f) [] (f_caps f).
Proof.
  induction s as [|a s IH]; intros adv f; simpl.
  - destruct (match_here r [] adv) as [g|] eqn:Hg; [|discriminate].
    intros [= <-]. apply match_here_sound in Hg as (-> & ? & ? & _). auto.
  - destruct (match_here r (a :: s) adv) as [g|] eqn:Hg.
    + intros [= <-]. apply match_here_sound in Hg as (-> & ? & ? & _). auto.
    + destruct (search_from r s false) as [g|] eqn:Hs; [|discriminate].
      intros [= <-]. simpl. apply IH in Hs as [-> ?]. auto.
Qed.

Lemma match_here_complete r w c0 c1 rest :
  matches r w c0 c1 -> is_Some (match_here r (w ++ rest) false).
Proof.
  intros Hm. unfold match_here. eapply m_complete; eauto.
Qed.

Lemma search_from_complete r w c0 c1 rest :
  matches r w c0 c1 ->
  forall pre, is_Some (search_from r (pre ++ w ++ rest) false).
Proof.
  intros Hm. induction pre as [|a pre IH].
  - simpl. destruct (match_here_complete r w c0 c1 rest Hm) as [f Hf].
    destruct (w ++ rest); simpl; rewrite Hf; eexists; eauto.
  - simpl. destruct (match_here r (a :: pre ++ w ++ rest) false);
      [eexists; eauto|].
    destruct IH as [f ->]. eexists; eauto.
Qed.

(** [re.search] finds nothing exactly when no part of the text is in the
    language of the pattern. *)
Lemma search_from_None r s :
  search_from r s false = None <->
  ~ exists pre w rest c0 c1, s = pre ++ w ++ rest /\ matches r w c0 c1.
Proof.
  split.
  - intros Hn (pre & w & rest & c0 & c1 & -> & Hm).
    destruct (search_from_complete r w c0 c1 rest Hm pre) as [f Hf].
    congruence.
  - intros Hn. destruct (search_from r s false) as [f|] eqn:Hs; auto.
    exfalso. apply Hn. apply search_from_sound in Hs as [Hs Hm].
    do 5 eexists. split; eauto.
Qed.


(** *** Counting a character *)

Lemma count_app a w1 w2 : count a (w1 ++ w2) = count a w1 + count a w2.
Proof. apply count_occ_app. Qed.

Lemma count_cons a b w :
  count a (b :: w) = (if Ascii.eqb b a then 1 else 0) + count a w.
Proof.
  unfold count. simpl. destruct (ascii_dec b a) as [->|Hne].
  - now rewrite Ascii.eqb_refl.
  - destruct (Ascii.eqb_spec b a); [contradiction|reflexivity].
Qed.

Lemma lit_of_le a c b : cls_ok c b = true -> lit_of a c <= count a [b].
Proof.
  rewrite count_cons. destruct c as [x| |]; cbn [lit_of cls_ok]; try lia.
  intros Hx. apply Ascii.eqb_eq in Hx as ->. lia.
Qed.

Lemma matches_lits a r w cs cs' :
  matches r w cs cs' -> lits a r <= count a w.
Proof.
  induction 1 as [cs0|c b cs0 Hb|c w cs0 Hne Hall|n r w cs0 cs1 Hm IH
                 |r1 r2 w1 w2 cs0 cs1 cs2 Hm1 IH1 Hm2 IH2]; simpl.
  - lia.
  - now apply lit_of_le.
  - destruct w as [|b w]; [congruence|].
    inversion Hall as [|? ? Hb Hall']; subst.
    change (b :: w) with ([b] ++ w). rewrite count_app.
    pose proof (lit_of_le a c b Hb). lia.
  - exact IH.
  - rewrite count_app. lia.
Qed.

Lemma matches_tight a r w cs cs' :
  matches r w cs cs' -> groups_free a r -> count a w = lits a r ->
  forall n c, In (n, c) cs' -> In (n, c) cs \/ count a c = 0.
Proof.
  induction 1 as [cs0|c b cs0 Hb|c w cs0 Hne Hall|n r w cs0 cs1 Hm IH
                 |r1 r2 w1 w2 cs0 cs1 cs2 Hm1 IH1 Hm2 IH2];
    simpl; intros Hfree Htight g c' Hin; auto.
  - destruct Hfree as [Hz Hfree]. destruct Hin as [[= <- <-]|Hin].
    + right. lia.
    + apply IH; auto.
  - destruct Hfree as [Hf1 Hf2]. rewrite count_app in Htight.
    pose proof (matches_lits a _ _ _ _ Hm1).
    pose proof (matches_lits a _ _ _ _ Hm2).
    destruct (IH2 Hf2 ltac:(lia) g c' Hin) as [Hin1|]; auto.
    apply IH1; auto. lia.
Qed.

Lemma group_In cs n c : group cs n = Some c -> In (n, c) cs.
Proof.
  induction cs as [|[g w] cs IH]; simpl; [discriminate|].
  destruct (Nat.eqb_spec g n) as [->|].
  - intros [= ->]. now left.
  - intros H. right. auto.
Qed.

Lemma search_from_count a r s adv f :
  search_from r s adv = Some f ->
  lits a r <= count a (f_word f) /\
  count a s = count a (f_pre f) + count a (f_word f) + count a (f_rest f).
Proof.
  intros H. apply search_from_sound in H as [-> Hm]. split.
  - eapply matches_lits; eauto.
  - rewrite !count_app. lia.
Qed.

(** Fewer occurrences than literals: no match. *)
Lemma search_from_few a r s adv :
  count a s < lits a r -> search_from r s adv = None.
Proof.
  intros Hlt. destruct (search_from r s adv) as [f|] eqn:Hs; auto.
  apply (search_from_count a) in Hs. lia.
Qed.

(** As many occurrences as literals: none of them is in a group, before
    the match or after it. *)
Lemma search_from_tight a r s adv f :
  search_from r s adv = Some f -> groups_free a r ->
  count a s <= lits a r ->
  count a (f_pre f) = 0 /\ count a (f_rest f) = 0 /\
  forall n c, group (f_caps f) n = Some c -> count a c = 0.
Proof.
  intros H Hfree Hle. pose proof (search_from_count a _ _ _ _ H) as [H1 H2].
  apply search_from_sound in H as [_ Hm]. repeat split; try lia.
  intros n c Hg. apply group_In in Hg.
  destruct (matches_tight a _ _ _ _ Hm Hfree ltac:(lia) n c Hg) as [[]|];
    auto.
Qed.

Lemma expand_count a t groups cs out :
  expand t groups cs = Some out ->
  (forall n c, group cs n = Some c -> count a c = 0) ->
  count a out = tcount a t.
Proof.
  intros H Hcs. revert out H.
  induction t as [|[c|n] t IH]; simpl; intros out.
  - now intros [= <-].
  - destruct (expand t groups cs) as [o|]; [|discriminate].
    intros [= <-]. rewrite count_cons, (IH o); auto.
  - destruct (n <=? groups); [|discriminate].
    destruct (expand t groups cs) as [o|]; [|discriminate].
    intros [= <-]. rewrite count_app, (IH o); auto.
    destruct (group cs n) as [c|] eqn:Hg; simpl; auto.
    now rewrite (Hcs n c).
Qed.

(** [re.subn] on a text with no more occurrences of [a] than the pattern
    has literals of it: there is at most one match, and the result has
    exactly the occurrences of [a] that the template writes. *)
Lemma subn_tight a p t s out k :
  subn p t s = Some (out, S k) -> groups_free a (p_re p) ->
  1 <= lits a (p_re p) -> count a s <= lits a (p_re p) ->
  k = 0 /\ count a out = tcount a t.
Proof.
  unfold subn. replace (2 * length s + 2) with (S (S (2 * length s))) by lia.
  cbn [subn_loop]. intros H Hfree Hone Hle.
  destruct (search_from (p_re p) s false) as [f|] eqn:Hs; [|discriminate].
  destruct (expand t (p_groups p) (f_caps f)) as [o|] eqn:Ho; [|discriminate].
  destruct (search_from_tight a _ _ _ _ Hs Hfree Hle) as (Hpre & Hrest & Hcs).
  rewrite (search_from_few a) in H by lia.
  injection H as <- <-. split; auto.
  rewrite !count_app, Hpre, Hrest, (expand_count a _ _ _ _ Ho Hcs). lia.
Qed.

End ReFacts.

(** ** Facts about the task declarations *)

Module PipelineFacts.
Import Re ReFacts Pipeline.

Lemma of_string_app (a b : string) :
  of_string (a ++ b) = of_string a ++ of_string b.
Proof.
  unfold of_string. induction a as [|c a IH]; simpl; [reflexivity|].
  now rewrite IH.
Qed.

(** *** Patterns built from a directory name *)

Definition plain_cls (a : ascii) : cls :=
  if Ascii.eqb a "."%char then CAny else CLit a.

(** The sequence a plain text stands for, read after [acc]. *)
Definition plain_re (d : text) (acc : re) : re :=
  fold_left (fun r a => Cat r (Chr (plain_cls a))) d acc.

Fixpoint plain_state (d : text) (cur : re) (pend : option cls)
    : re * option cls :=
  match d with
  | [] => (cur, pend)
  | a :: d' => plain_state d' (flush cur pend) (Some (plain_cls a))
  end.

Lemma plain_state_flush d : forall cur pend,
  flush (plain_state d cur pend).1 (plain_state d cur pend).2
  = plain_re d (flush cur pend).
Proof.
  induction d as [|a d IH]; intros cur pend; simpl; [reflexivity|].
  now rewrite IH.
Qed.

Lemma parse_plain_step a s cur pend stack n :
  plain_char a = true ->
  parse_loop (a :: s) cur pend stack n
  = parse_loop s (flush cur pend) (Some (plain_cls a)) stack n.
Proof.
  unfold plain_char, plain_cls. intros H.
  destruct (Ascii.eqb_spec a "."%char) as [->|Hdot]; [reflexivity|].
  simpl in H.
  assert (Hmeta : is_meta a = false) by now destruct (is_meta a).
  cbn [parse_loop]. unfold is_meta in *. cbn [existsb] in *.
  repeat (apply orb_false_elim in Hmeta as [? Hmeta]).
  repeat match goal with
         | H : Ascii.eqb a ?c = false |- _ => rewrite H; clear H
         end.
  reflexivity.
Qed.

Lemma parse_plain d : forall rest cur pend stack n,
  forallb plain_char d = true ->
  parse_loop (d ++ rest) cur pend stack n
  = parse_loop rest (plain_state d cur pend).1 (plain_state d cur pend).2
      stack n.
Proof.
  induction d as [|a d IH]; intros rest cur pend stack n H; [reflexivity|].
  cbn [forallb] in H. apply andb_prop in H as [Ha Hd].
  cbn [app plain_state]. rewrite parse_plain_step by exact Ha. now apply IH.
Qed.

Lemma lits_plain_re a d : forall acc,
  a <> "."%char -> forallb plain_char d = true ->
  lits a (plain_re d acc) = lits a acc + count a d.
Proof.
  intros acc Hdot. revert acc.
  induction d as [|b d IH]; intros acc H.
  - unfold count. simpl. lia.
  - cbn [forallb] in H. apply andb_prop in H as [Hb Hd].
    unfold plain_re in *. cbn [fold_left]. rewrite IH by exact Hd.
    rewrite count_cons. cbn [lits lit_of]. unfold plain_cls.
    destruct (Ascii.eqb_spec b "."%char) as [->|]; cbn [lit_of]; [|lia].
    destruct (Ascii.eqb_spec "."%char a) as [<-|]; [congruence|lia].
Qed.

(** The end of the pattern of [run_mapping], [.fastq.gz] with its two
    unescaped dots, after the sequence [r]. *)
Definition fastq_gz_tail (r : re) : re :=
  Cat (Cat (Cat (Cat (Cat (Cat (Cat (Cat (Cat r
    (Chr CAny)) (Chr (CLit "f"))) (Chr (CLit "a"))) (Chr (CLit "s")))
    (Chr (CLit "t"))) (Chr (CLit "q"))) (Chr CAny)) (Chr (CLit "g")))
    (Chr (CLit "z")).

Definition mapping_re (d : text) : re :=
  fastq_gz_tail
    (Cat (Cat (plain_re d Eps) (Chr (CLit "/")))
         (Grp 1 (Cat Eps (Plus CNonSpace)))).

Lemma compile_run_mapping DATADIR :
  plain DATADIR = true ->
  compile (run_mapping_regex DATADIR)
  = Some {| p_re := mapping_re (of_string DATADIR); p_groups := 1 |}.
Proof.
  intros H. unfold compile, run_mapping_regex.
  rewrite of_string_app, parse_plain by exact H.
  assert (Hrest : forall c p,
    parse_loop (of_string "/(\S+).fastq.gz") c p [] 0
    = Some (fastq_gz_tail
              (Cat (Cat (flush c p) (Chr (CLit "/")))
                   (Grp 1 (Cat Eps (Plus CNonSpace)))), 1))
    by (intros; reflexivity).
  rewrite Hrest, plain_state_flush. reflexivity.
Qed.

Lemma lits_mapping_re d :
  forallb plain_char d = true ->
  lits "/" (mapping_re d) = count "/" d + 1.
Proof.
  intros H. unfold mapping_re, fastq_gz_tail. cbn [lits lit_of].
  rewrite lits_plain_re by (auto; discriminate). simpl. lia.
Qed.

Lemma groups_free_plain_re a d : forall acc,
  groups_free a acc -> groups_free a (plain_re d acc).
Proof.
  unfold plain_re. induction d as [|b d IH]; intros acc H; simpl; auto.
  apply IH. simpl. auto.
Qed.

Lemma groups_free_mapping_re d : groups_free "/" (mapping_re d).
Proof.
  unfold mapping_re, fastq_gz_tail. simpl. repeat split; auto.
  apply groups_free_plain_re. exact I.
Qed.

(** *** What a match of the pattern of [run_mapping] ends with *)

Lemma matches_snoc r c w cs cs' :
  matches (Cat r (Chr c)) w cs cs' ->
  exists w0 a, w = w0 ++ [a] /\ cls_ok c a = true /\ matches r w0 cs cs'.
Proof.
  intros H. inversion H as [| | | |? ? w1 w2 ? cs1 ? H1 H2]; subst.
  inversion H2; subst. eauto.
Qed.

Lemma matches_fastq_gz_tail r w cs cs' :
  matches (fastq_gz_tail r) w cs cs' ->
  exists w0 c1 c2,
    w = w0 ++ [c1; "f"; "a"; "s"; "t"; "q"; c2; "g"; "z"]%char /\
    matches r w0 cs cs'.
Proof.
  unfold fastq_gz_tail. intros H.
  repeat match goal with
         | H : matches (Cat _ (Chr _)) _ _ _ |- _ =>
             apply matches_snoc in H as (? & ? & -> & ? & H)
         end.
  repeat match goal with
         | H : cls_ok (CLit _) _ = true |- _ =>
             cbn [cls_ok] in H; apply Ascii.eqb_eq in H; subst
         end.
  do 3 eexists. split; [|exact H]. rewrite <- !app_assoc. reflexivity.
Qed.

(** The suffix [.fastq.1.gz] is never part of such a match: the match
    ends before it. *)
Lemma fastq_1_gz_untouched (path pre w0 rest : text) (c1 c2 : ascii) :
  path ++ of_string ".fastq.1.gz"
  = pre ++ (w0 ++ [c1; "f"; "a"; "s"; "t"; "q"; c2; "g"; "z"]%char) ++ rest ->
  exists rest', rest = rest' ++ of_string ".fastq.1.gz".
Proof.
  intros H. apply (f_equal (@rev ascii)) in H.
  rewrite !rev_app_distr in H. simpl in H.
  rewrite <- (rev_involutive rest). remember (rev rest) as R eqn:HR.
  clear HR rest.
  do 11 (destruct R as [|? R]; [simpl in H; congruence|]).
  simpl in H. injection H as -> -> -> -> -> -> -> -> -> -> -> _.
  exists (rev R). simpl. rewrite <- !app_assoc. reflexivity.
Qed.

(** *** [re.subn] returns *)

Definition refs_ok (t : list titem) (groups : nat) : bool :=
  forallb (fun i => match i with TLit _ => true | TRef n => n <=? groups end)
          t.

Lemma expand_total t groups cs :
  refs_ok t groups = true -> is_Some (expand t groups cs).
Proof.
  induction t as [|[c|n] t IH]; simpl; intros H.
  - eexists; eauto.
  - destruct (IH H) as [o ->]. eexists; simpl; eauto.
  - apply andb_prop in H as [-> H]. destruct (IH H) as [o ->].
    eexists; simpl; eauto.
Qed.

Lemma search_from_advance r s f :
  search_from r s true = Some f -> f_pre f = [] -> f_word f <> [].
Proof.
  destruct s as [|a s]; simpl.
  - destruct (match_here r [] true) as [g|] eqn:Hg; [|discriminate].
    intros [= <-] _. now apply match_here_sound in Hg as (_ & _ & _ & ?); auto.
  - destruct (match_here r (a :: s) true) as [g|] eqn:Hg.
    + intros [= <-] _.
      now apply match_here_sound in Hg as (_ & _ & _ & ?); auto.
    + destruct (search_from r s false); [|discriminate].
      intros [= <-]. simpl. discriminate.
Qed.

Lemma subn_loop_total p t :
  refs_ok t (p_groups p) = true ->
  forall fuel s (adv : bool),
    2 * length s + (if adv then 0 else 1) < fuel ->
    is_Some (subn_loop fuel p t s adv).
Proof.
  intros Hrefs. induction fuel as [|fuel IH]; intros s adv Hfuel; [lia|].
  cbn [subn_loop].
  destruct (search_from (p_re p) s adv) as [f|] eqn:Hs; [|eexists; eauto].
  destruct (expand_total t (p_groups p) (f_caps f) Hrefs) as [o ->].
  pose proof (search_from_sound _ _ _ _ Hs) as [Hsplit _].
  apply (f_equal (@length ascii)) in Hsplit. rewrite !length_app in Hsplit.
  destruct (IH (f_rest f) (length (f_word f) =? 0)) as [[tl k] ->].
  - destruct (Nat.eqb_spec (length (f_word f)) 0) as [Hw|Hw]; [|lia].
    destruct (f_pre f) as [|b pre] eqn:Hpre; [|simpl in Hsplit; lia].
    destruct adv; [|lia]. apply search_from_advance in Hs; auto.
    destruct (f_word f); simpl in *; [congruence|lia].
  - eexists; eauto.
Qed.

Lemma subn_total p t s :
  refs_ok t (p_groups p) = true -> is_Some (subn p t s).
Proof. intros H. apply subn_loop_total; auto. lia. Qed.

(** [re.subn] replaces something exactly when [re.search] finds
    something. *)
Lemma subn_zero p t s out :
  subn p t s = Some (out, 0) <->
  search_from (p_re p) s false = None /\ out = s.
Proof.
  unfold subn. replace (2 * length s + 2) with (S (2 * length s + 1)) by lia.
  cbn [subn_loop]. destruct (search_from (p_re p) s false) as [f|].
  - split; [|intros [[=] _]].
    destruct (expand t (p_groups p) (f_caps f)); [|discriminate].
    destruct (subn_loop _ p t (f_rest f) _) as [[tl k]|]; discriminate.
  - split; [intros [= <-]; auto|intros [_ ->]; auto].
Qed.

(** *** The jobs of [@transform] *)

Definition transform_job (p : pattern) (t : list titem) (i : text)
    : list job :=
  match subn p t i with
  | Some (out, S _) => [{| j_inputs := [i]; j_output := out |}]
  | _ => []
  end.

Lemma transform_eq inputs pat tmpl p t :
  compile pat = Some p -> parse_template (of_string tmpl) = Some t ->
  transform inputs pat tmpl = Some (concat (map (transform_job p t) inputs)).
Proof. unfold transform. intros -> ->. reflexivity. Qed.

Lemma in_transform_job p t i j :
  In j (transform_job p t i) ->
  exists k, subn p t i = Some (j_output j, S k) /\ j_inputs j = [i].
Proof.
  unfold transform_job. destruct (subn p t i) as [[out [|k]]|]; simpl;
    try tauto.
  intros [<-|[]]. simpl. eauto.
Qed.

Lemma in_transform inputs p t j :
  In j (concat (map (transform_job p t) inputs)) ->
  exists i k, In i inputs /\ subn p t i = Some (j_output j, S k) /\
              j_inputs j = [i].
Proof.
  rewrite in_concat. intros (l & Hl & Hj). apply in_map_iff in Hl.
  destruct Hl as (i & <- & Hi). apply in_transform_job in Hj as (k & ? & ?).
  eauto.
Qed.

Lemma transform_job_None p t i :
  search_from (p_re p) i false = None -> transform_job p t i = [].
Proof.
  intros H. unfold transform_job.
  destruct (subn p t i) as [[out [|k]]|] eqn:Hs; auto.
  unfold subn in Hs.
  replace (2 * length i + 2) with (S (2 * length i + 1)) in Hs by lia.
  cbn [subn_loop] in Hs. rewrite H in Hs. discriminate.
Qed.

Lemma transform_job_Some p t i :
  refs_ok t (p_groups p) = true ->
  search_from (p_re p) i false <> None ->
  exists out, transform_job p t i = [{| j_inputs := [i]; j_output := out |}].
Proof.
  intros Hrefs H. unfold transform_job.
  destruct (subn_total p t i Hrefs) as [[out [|k]] Hs]; rewrite Hs.
  - apply subn_zero in Hs as [Hs _]. contradiction.
  - eauto.
Qed.

(** *** Separators in the paths of the jobs *)

Lemma count_os_path_join d n :
  count "/" (os_path_join d n) <= count "/" d + 1 + count "/" n.
Proof.
  unfold os_path_join. destruct (starts_with_sep n); [lia|].
  destruct ((length d =? 0) || ends_with_sep d); rewrite count_app.
  - lia.
  - rewrite count_cons. simpl. lia.
Qed.

Lemma count_os_path_join_sep d n :
  d = [] \/ ends_with_sep d = true ->
  count "/" (os_path_join d n) <= count "/" d + count "/" n.
Proof.
  intros Hd. unfold os_path_join. destruct (starts_with_sep n); [lia|].
  destruct Hd as [-> | ->]; simpl; [lia|].
  rewrite orb_true_r, count_app. lia.
Qed.

Lemma count_rev a (w : text) : count a (rev w) = count a w.
Proof.
  induction w as [|b w IH]; [reflexivity|]. cbn [rev].
  rewrite count_app, IH, !count_cons. change (count a []) with 0. lia.
Qed.

Lemma last_component_spec r tail head :
  last_component r = (tail, head) ->
  r = tail ++ head /\ count "/" tail = 0 /\
  (head = [] \/ exists head', head = "/"%char :: head').
Proof.
  revert tail head. induction r as [|a r IH]; simpl; intros tail head.
  - intros [= <- <-]. auto.
  - destruct (Ascii.eqb_spec a "/"%char) as [->|Hne].
    + intros [= <- <-]. eauto.
    + destruct (last_component r) as [t h]. intros [= <- <-].
      destruct (IH t h eq_refl) as (-> & Ht & Hh).
      repeat split; auto. rewrite count_cons, Ht.
      destruct (Ascii.eqb_spec a "/"%char); [contradiction|reflexivity].
Qed.

Lemma count_drop_seps r : count "/" (drop_seps r) <= count "/" r.
Proof.
  induction r as [|a r IH]; [reflexivity|]. cbn [drop_seps].
  destruct (Ascii.eqb a "/"%char) eqn:Ha; rewrite ?count_cons; lia.
Qed.

(** Joining a name to the directory part of a path gives no more
    separators than the path and the name have. *)
Lemma count_join_dirname x n :
  count "/" (os_path_join (os_path_split x).1 n)
  <= count "/" x + count "/" n.
Proof.
  unfold os_path_split.
  destruct (last_component (rev x)) as [tail head] eqn:Hsplit.
  apply last_component_spec in Hsplit as (Hrev & Htail & Hhead).
  assert (Hx : count "/" x = count "/" head)
    by (rewrite <- (count_rev _ x), Hrev, count_app; lia).
  destruct Hhead as [->|[head' ->]]; cbn [drop_seps fst].
  - rewrite count_os_path_join_sep by auto. unfold count. simpl. lia.
  - rewrite Ascii.eqb_refl.
    destruct (drop_seps head') as [|b stripped] eqn:Hdrop.
    + rewrite count_os_path_join_sep.
      * rewrite count_rev, Hx. lia.
      * right. unfold ends_with_sep. simpl. rewrite last_snoc.
        reflexivity.
    + pose proof (count_os_path_join (rev (b :: stripped)) n) as Hjoin.
      pose proof (count_drop_seps head') as Hdrop'.
      rewrite Hdrop in Hdrop'. rewrite count_rev in Hjoin.
      rewrite Hx, count_cons, Ascii.eqb_refl. lia.
Qed.

Lemma in_input_files DATADIR names f :
  In f (input_files DATADIR names) ->
  exists n, In n names /\
    count "/" f <= count "/" (of_string DATADIR) + 1 + count "/" n.
Proof.
  unfold input_files. rewrite in_concat. intros (l & Hl & Hf).
  apply in_map_iff in Hl as (pathname & <- & Hpat).
  unfold SEQUENCEFILES in Hpat.
  apply in_map_iff in Hpat as (suffix_name & <- & Hsuffix).
  unfold glob in Hf.
  pose proof (count_join_dirname
                (os_path_join (of_string DATADIR) (of_string suffix_name)))
    as Hcount.
  destruct (os_path_split _) as [dirname basename].
  apply in_map_iff in Hf as (n & <- & Hn). apply filter_In in Hn as [Hn _].
  exists n. split; [exact Hn|].
  specialize (Hcount n). cbn [fst] in Hcount.
  pose proof (count_os_path_join (of_string DATADIR) (of_string suffix_name)).
  assert (count "/" (of_string suffix_name) = 0).
  { destruct Hsuffix as [<-|[<-|[]]]; reflexivity. }
  lia.
Qed.

Lemma concat_map_nil {A B} (f : A -> list B) l :
  (forall x, In x l -> f x = []) -> concat (map f l) = [].
Proof.
  induction l as [|x l IH]; simpl; intros H; [reflexivity|].
  rewrite H by auto. simpl. apply IH. auto.
Qed.

(** A [@transform] whose inputs have no more separators than its
    pattern has literal ones: it returns, and every output has exactly
    the separators of the template. *)
Lemma transform_tight inputs pat tmpl p t :
  compile pat = Some p -> parse_template (of_string tmpl) = Some t ->
  groups_free "/" (p_re p) -> 1 <= lits "/" (p_re p) ->
  (forall i, In i inputs -> count "/" i <= lits "/" (p_re p)) ->
  exists jobs,
    transform inputs pat tmpl = Some jobs /\
    forall j, In j jobs -> count "/" (j_output j) = tcount "/" t.
Proof.
  intros Hp Ht Hfree Hone Hin. eexists. split; [eapply transform_eq; eauto|].
  intros j Hj. apply in_transform in Hj as (i & k & Hi & Hs & _).
  eapply subn_tight in Hs as [_ Hs]; eauto.
Qed.

(** A [@transform] whose inputs have fewer separators than its pattern
    has literal ones creates no job. *)
Lemma transform_few inputs pat tmpl p t :
  compile pat = Some p -> parse_template (of_string tmpl) = Some t ->
  (forall i, In i inputs -> count "/" i < lits "/" (p_re p)) ->
  transform inputs pat tmpl = Some [].
Proof.
  intros Hp Ht Hin. rewrite (transform_eq _ _ _ _ _ Hp Ht). f_equal.
  apply concat_map_nil. intros i Hi. apply transform_job_None.
  apply (search_from_few "/"). auto.
Qed.

Lemma in_outputs jobs o :
  In o (outputs jobs) -> exists j, In j jobs /\ o = j_output j.
Proof.
  unfold outputs. intros H. apply in_map_iff in H as (j & <- & Hj). eauto.
Qed.

End PipelineFacts.

(** ** The usual case: one group between two runs of single characters *)

Module Shape.
Import Re ReFacts Pipeline PipelineFacts.

(** Every pattern of the workflow is a run of one-character classes, the
    group [(\S+)], and another run of one-character classes. *)
Definition atoms (acc : re) (cs : list cls) : re :=
  fold_left (fun r c => Cat r (Chr c)) cs acc.

Definition shape (before after : list cls) : re :=
  atoms (Cat (atoms Eps before) (Grp 1 (Cat Eps (Plus CNonSpace)))) after.

Fixpoint match_atoms {A} (cs : list cls) (s : text) (k : text -> option A)
    : option A :=
  match cs with
  | [] => k s
  | c :: cs' =>
      match s with
      | a :: s' => if cls_ok c a then match_atoms cs' s' k else None
      | [] => None
      end
  end.

Lemma plus_greedy_ext {A} c s (k1 k2 : text -> option A) :
  (forall s', k1 s' = k2 s') -> plus_greedy c s k1 = plus_greedy c s k2.
Proof.
  intros H. induction s as [|a s IH]; simpl; [reflexivity|].
  now rewrite IH, H.
Qed.

Lemma m_ext {A} r : forall s cs (k1 k2 : text -> caps -> option A),
  (forall s' cs', k1 s' cs' = k2 s' cs') -> m r s cs k1 = m r s cs k2.
Proof.
  induction r as [|c|c|n r IH|r1 IH1 r2 IH2]; simpl; intros s cs k1 k2 H.
  - apply H.
  - destruct s as [|a s]; [reflexivity|]. now rewrite H.
  - apply plus_greedy_ext. intros s'. apply H.
  - apply IH. intros s' cs'. apply H.
  - apply IH1. intros s' cs'. apply IH2, H.
Qed.

Lemma m_atoms {A} cs : forall acc s cs0 (k : text -> caps -> option A),
  m (atoms acc cs) s cs0 k
  = m acc s cs0 (fun s' cs' => match_atoms cs s' (fun s'' => k s'' cs')).
Proof.
  unfold atoms. induction cs as [|c cs IH]; intros acc s cs0 k; simpl.
  - reflexivity.
  - rewrite IH. simpl. apply m_ext. intros s' cs'.
    destruct s' as [|a s']; reflexivity.
Qed.

Lemma match_atoms_exact {A} cs : forall l s (k : text -> option A),
  Forall2 (fun c a => cls_ok c a = true) cs l ->
  match_atoms cs (l ++ s) k = k s.
Proof.
  induction cs as [|c cs IH]; intros l s k H; inversion H; subst; simpl.
  - reflexivity.
  - match goal with Hc : cls_ok c _ = true |- _ => rewrite Hc end.
    now apply IH.
Qed.

Lemma match_atoms_all {A} cs l (k : text -> option A) :
  Forall2 (fun c a => cls_ok c a = true) cs l -> match_atoms cs l k = k [].
Proof.
  intros H. rewrite <- (app_nil_r l) at 1. now apply match_atoms_exact.
Qed.

Lemma match_atoms_short {A} cs : forall s (k : text -> option A),
  length s < length cs -> match_atoms cs s k = None.
Proof.
  induction cs as [|c cs IH]; intros s k H; simpl in *; [lia|].
  destruct s as [|a s]; [reflexivity|]. simpl in H.
  destruct (cls_ok c a); [|reflexivity]. apply IH. lia.
Qed.

Lemma plus_greedy_fail {A} c s (k : text -> option A) :
  (forall u s', s = u ++ s' -> u <> [] -> k s' = None) ->
  plus_greedy c s k = None.
Proof.
  induction s as [|a s IH]; intros H; simpl; [reflexivity|].
  destruct (cls_ok c a); [|reflexivity].
  rewrite IH.
  - apply (H [a] s); [reflexivity|discriminate].
  - intros u s' -> Hu. apply (H (a :: u) s'); [reflexivity|discriminate].
Qed.

(** The greedy [+] gives back what it took too much of: if the
    continuation succeeds right after [w] and on no shorter rest, that
    is where the match goes on. *)
Lemma plus_greedy_longest {A} c w s (k : text -> option A) x :
  w <> [] -> Forall (fun a => cls_ok c a = true) w ->
  k s = Some x ->
  (forall u s', s = u ++ s' -> u <> [] -> k s' = None) ->
  plus_greedy c (w ++ s) k = Some x.
Proof.
  intros Hne Hall Hk Hshort. induction w as [|a w IH]; [congruence|].
  inversion Hall as [|? ? Ha Hall']; subst. cbn [app plus_greedy].
  rewrite Ha. destruct w as [|b w].
  - simpl. now rewrite plus_greedy_fail.
  - rewrite IH; auto; discriminate.
Qed.

(** A text that is the pattern's first run, a name without whitespace
    and the pattern's second run is matched whole, and the group holds
    the name. *)
Lemma match_here_shape before after l1 stem l2 :
  Forall2 (fun c a => cls_ok c a = true) before l1 ->
  stem <> [] -> nonspace stem ->
  Forall2 (fun c a => cls_ok c a = true) after l2 ->
  match_here (shape before after) (l1 ++ stem ++ l2) false
  = Some {| f_pre := []; f_word := l1 ++ stem ++ l2;
            f_caps := [(1, stem)]; f_rest := [] |}.
Proof.
  intros H1 Hne Hstem H2. unfold match_here, shape.
  rewrite m_atoms. cbn [m]. rewrite m_atoms. cbn [m].
  rewrite match_atoms_exact by exact H1.
  erewrite plus_greedy_longest; [reflexivity|exact Hne|exact Hstem| |].
  - rewrite match_atoms_all by exact H2. cbn [andb length].
    rewrite firstn_consumed, Nat.sub_0_r, firstn_all. reflexivity.
  - intros u s' -> Hu. apply match_atoms_short.
    apply Forall2_length in H2. rewrite H2, length_app.
    destruct u; [congruence|]. simpl. lia.
Qed.

Lemma search_from_shape before after l1 stem l2 :
  Forall2 (fun c a => cls_ok c a = true) before l1 ->
  stem <> [] -> nonspace stem ->
  Forall2 (fun c a => cls_ok c a = true) after l2 ->
  search_from (shape before after) (l1 ++ stem ++ l2) false
  = Some {| f_pre := []; f_word := l1 ++ stem ++ l2;
            f_caps := [(1, stem)]; f_rest := [] |}.
Proof.
  intros H1 Hne Hstem H2.
  pose proof (match_here_shape _ _ _ _ _ H1 Hne Hstem H2) as Hm.
  destruct (l1 ++ stem ++ l2); simpl; now rewrite Hm.
Qed.

Lemma search_from_shape_nil before after adv :
  search_from (shape before after) [] adv = None.
Proof.
  destruct (search_from (shape before after) [] adv) as [f|] eqn:Hs; auto.
  apply search_from_sound in Hs as [Hsplit Hm]. exfalso.
  assert (Hlen : forall r w cs cs', matches r w cs cs' ->
            forall b a, r = shape b a -> w <> []).
  { clear. intros r w cs cs' Hm b a ->. unfold shape in Hm.
    revert w cs cs' Hm. unfold atoms.
    induction a as [|c a IH] using rev_ind; intros w cs cs' Hm.
    - simpl in Hm. inversion Hm as [| | | |? ? w1 w2 ? ? ? _ Hg]; subst.
      inversion Hg as [| | |? ? ? ? ? Hb|]; subst.
      inversion Hb as [| | | |? ? w3 w4 ? ? ? _ Hp]; subst.
      inversion Hp; subst. destruct w1, w3, w4; simpl; congruence.
    - rewrite fold_left_app in Hm. simpl in Hm.
      apply matches_snoc in Hm as (w0 & x & -> & _ & _).
      destruct w0; discriminate. }
  apply (Hlen _ _ _ _ Hm before after eq_refl).
  destruct (f_pre f), (f_word f); simpl in Hsplit; congruence.
Qed.

(** [re.subn] then writes the template once, with the name for [\1]. *)
Lemma subn_shape before after groups t l1 stem l2 out :
  Forall2 (fun c a => cls_ok c a = true) before l1 ->
  stem <> [] -> nonspace stem ->
  Forall2 (fun c a => cls_ok c a = true) after l2 ->
  expand t groups [(1, stem)] = Some out ->
  subn {| p_re := shape before after; p_groups := groups |} t
       (l1 ++ stem ++ l2)
  = Some (out, 1).
Proof.
  intros H1 Hne Hstem H2 Hout. unfold subn.
  replace (2 * length (l1 ++ stem ++ l2) + 2)
    with (S (S (2 * length (l1 ++ stem ++ l2)))) by lia.
  cbn [subn_loop p_re p_groups].
  rewrite (search_from_shape _ _ _ _ _ H1 Hne Hstem H2).
  cbn [f_caps f_rest f_pre f_word]. rewrite Hout.
  rewrite search_from_shape_nil. simpl. now rewrite app_nil_r.
Qed.

End Shape.

Module Naming.
Import Re ReFacts Pipeline PipelineFacts Shape.

(** The classes a run of plain characters stands for. *)
Definition classes (s : text) : list cls := map plain_cls s.

Lemma classes_ok (s : text) :
  Forall2 (fun c a => cls_ok c a = true) (classes s) s.
Proof.
  induction s as [|a s IH]; simpl; constructor; auto.
  unfold plain_cls. destruct (Ascii.eqb_spec a "."%char) as [->|]; simpl.
  - reflexivity.
  - apply Ascii.eqb_refl.
Qed.

Lemma atoms_classes d acc : atoms acc (classes d) = plain_re d acc.
Proof.
  unfold atoms, classes, plain_re. revert acc.
  induction d as [|a d IH]; intros acc; simpl; auto.
Qed.

Lemma mapping_re_shape d :
  mapping_re d
  = shape (classes (d ++ of_string "/")) (classes (of_string ".fastq.gz")).
Proof.
  unfold mapping_re, shape, classes. rewrite map_app.
  unfold atoms at 2. rewrite fold_left_app.
  change (fold_left _ (map plain_cls d) Eps) with (atoms Eps (classes d)).
  rewrite (atoms_classes d Eps). reflexivity.
Qed.

(** One input that is [before], a name, [after] gives one job, whose
    output is the template with the name in the place of [\1]. *)
Lemma transform_one pat tmpl before after t stem out :
  compile pat
  = Some {| p_re := shape (classes before) (classes after); p_groups := 1 |} ->
  parse_template (of_string tmpl) = Some t ->
  expand t 1 [(1, stem)] = Some out ->
  stem <> [] -> nonspace stem ->
  transform [before ++ stem ++ after] pat tmpl
  = Some [{| j_inputs := [before ++ stem ++ after]; j_output := out |}].
Proof.
  intros Hp Ht Hout Hne Hstem. rewrite (transform_eq _ _ _ _ _ Hp Ht).
  simpl. unfold transform_job.
  rewrite (subn_shape _ _ _ _ _ _ _ out (classes_ok before) Hne Hstem
             (classes_ok after) Hout).
  reflexivity.
Qed.

End Naming.

(** ** The invariant of the scheduler loop *)

Module SchedulerFacts.
Import Re Pipeline Scheduler.

(** *** Edges and guards *)

Section GraphFacts.

Variable jobs : list job.

Local Abbreviation consumes := (consumes jobs).
Local Abbreviation preds := (preds jobs).
Local Abbreviation preds_done := (preds_done jobs).
Local Abbreviation pred_failed := (pred_failed jobs).

Lemma consumes_lt i u :
  consumes i u = true -> i < length jobs /\ u < length jobs.
Proof.
  unfold consumes. destruct (jobs !! i) eqn:Hi; [|discriminate].
  destruct (jobs !! u) eqn:Hu; [|discriminate].
  intros _. split; eapply lookup_lt_Some; eauto.
Qed.

Lemma in_preds i u : In u (preds i) <-> consumes i u = true.
Proof.
  unfold preds. rewrite filter_In, in_seq. split; [tauto|].
  intros H. split; auto. apply consumes_lt in H. lia.
Qed.

Lemma preds_done_spec i st :
  preds_done i st = true <->
  forall u, consumes i u = true -> done_ok (st !! u) = true.
Proof.
  unfold preds_done. rewrite forallb_forall. split; intros H u Hu.
  - apply H, in_preds, Hu.
  - apply H, in_preds, Hu.
Qed.

Lemma pred_failed_spec i st :
  pred_failed i st = true <->
  exists u, consumes i u = true /\ has_failed (st !! u) = true.
Proof.
  unfold pred_failed. rewrite existsb_exists. split.
  - intros (u & Hu & Hf). exists u. split; auto. now apply in_preds.
  - intros (u & Hu & Hf). exists u. split; auto. now apply in_preds.
Qed.

End GraphFacts.

(** *** What a step leaves alone *)

Section RunFacts.

Variable jobs : list job.
Variable is_stale : nat -> run_state -> bool.
Variable limit : nat.

Local Abbreviation transition := (transition jobs is_stale limit).
Local Abbreviation fire := (fire jobs is_stale limit).
Local Abbreviation play := (play jobs is_stale limit).
Local Abbreviation init := (init jobs).
Local Abbreviation preds_done := (preds_done jobs).
Local Abbreviation pred_failed := (pred_failed jobs).

Lemma in_state_true st i s : in_state st i s = true -> st !! i = Some s.
Proof. unfold in_state. apply bool_decide_eq_true_1. Qed.

Lemma fire_transition e st st' :
  fire e st = Some st' ->
  exists i old new,
    st !! i = Some old /\ st' = <[i := new]> st /\ transition st i old new.
Proof.
  destruct e as [i|i|i|i ok|i]; simpl;
    repeat match goal with
           | |- context [in_state st i ?s] =>
               destruct (in_state st i s) eqn:Hin; simpl;
               [apply in_state_true in Hin|discriminate]
           end.
  - destruct (preds_done i st) eqn:Hp; [|discriminate].
    destruct (is_stale i st) eqn:Hs; simpl; [|discriminate].
    intros [= <-]. do 3 eexists. repeat split; eauto. now constructor.
  - destruct (preds_done i st) eqn:Hp; [|discriminate].
    destruct (is_stale i st) eqn:Hs; simpl; [discriminate|].
    intros [= <-]. do 3 eexists. repeat split; eauto. now constructor.
  - destruct (Nat.ltb_spec (running st) limit); [|discriminate].
    intros [= <-]. do 3 eexists. repeat split; eauto. now constructor.
  - intros [= <-]. do 3 eexists. repeat split; eauto.
    destruct ok; constructor.
  - destruct (pred_failed i st) eqn:Hp; [|discriminate].
    intros [= <-]. do 3 eexists. repeat split; eauto. now constructor.
Qed.


(** Every transition leaves an instance that is pending, ready or
    running; so the state of an instance that succeeded, was skipped or
    failed is never written again. *)
Lemma transition_source st i old new :
  transition st i old new -> terminal old = false.
Proof. destruct 1; reflexivity. Qed.

Lemma step_keeps_terminal st i old new u s :
  transition st i old new -> st !! i = Some old ->
  st !! u = Some s -> terminal s = true -> <[i := new]> st !! u = Some s.
Proof.
  intros Ht Hi Hu Hs. destruct (decide (i = u)) as [->|Hne].
  - apply transition_source in Ht. congruence.
  - now rewrite list_lookup_insert_ne.
Qed.

Lemma step_keeps_done st i old new u :
  transition st i old new -> st !! i = Some old ->
  done_ok (st !! u) = true -> done_ok (<[i := new]> st !! u) = true.
Proof.
  intros Ht Hi Hu. destruct (st !! u) as [s|] eqn:Hs; [|discriminate].
  erewrite step_keeps_terminal; eauto. now destruct s.
Qed.

Lemma step_keeps_failed st i old new u :
  transition st i old new -> st !! i = Some old ->
  has_failed (st !! u) = true -> has_failed (<[i := new]> st !! u) = true.
Proof.
  intros Ht Hi Hu. destruct (st !! u) as [s|] eqn:Hs; [|discriminate].
  erewrite step_keeps_terminal; eauto. now destruct s.
Qed.

Lemma running_insert (st : run_state) : forall i old new,
  st !! i = Some old ->
  running (<[i := new]> st) + (if is_running old then 1 else 0)
  = running st + (if is_running new then 1 else 0).
Proof.
  unfold running. induction st as [|s st IH]; intros [|i] old new H;
    try discriminate; simpl in *.
  - injection H as ->. destruct (is_running old), (is_running new); simpl; lia.
  - specialize (IH i old new H). destruct (is_running s); simpl; lia.
Qed.

(** *** The invariant of a run *)

Record inv (st : run_state) : Prop := {
  inv_length : length st = length jobs;
  inv_started : forall i s,
    st !! i = Some s -> started s = true -> preds_done i st = true;
  inv_blocked : forall i,
    st !! i = Some (Failed BlockedByUpstreamFailure) -> pred_failed i st = true;
  inv_limit : running st <= limit
}.

Lemma inv_init : inv init.
Proof.
  unfold init. split.
  - apply length_replicate.
  - intros i s H. apply lookup_replicate in H as [-> _]. discriminate.
  - intros i H. apply lookup_replicate in H as [[=] _].
  - unfold running. induction (length jobs); simpl; lia.
Qed.

Lemma inv_step st i old new :
  inv st -> st !! i = Some old -> transition st i old new ->
  inv (<[i := new]> st).
Proof.
  intros [Hlen Hst Hbl Hlim] Hi Ht.
  assert (Hdone : forall j, preds_done j st = true ->
                            preds_done j (<[i := new]> st) = true).
  { intros j. rewrite !preds_done_spec. intros H u Hu.
    eapply step_keeps_done; eauto. }
  assert (Hfail : forall j, pred_failed j st = true ->
                            pred_failed j (<[i := new]> st) = true).
  { intros j. rewrite !pred_failed_spec. intros (u & Hu & Hf).
    exists u. split; auto. eapply step_keeps_failed; eauto. }
  assert (Hlt : i < length st) by (eapply lookup_lt_Some; eauto).
  split.
  - now rewrite length_insert.
  - intros j s Hj Hs. apply Hdone. destruct (decide (i = j)) as [<-|Hne].
    + rewrite list_lookup_insert_eq in Hj by exact Hlt. injection Hj as <-.
      destruct Ht; try discriminate; auto; eapply Hst; eauto.
    + rewrite list_lookup_insert_ne in Hj by exact Hne. eapply Hst; eauto.
  - intros j Hj. apply Hfail. destruct (decide (i = j)) as [<-|Hne].
    + rewrite list_lookup_insert_eq in Hj by exact Hlt. injection Hj as Hnew.
      destruct Ht; try discriminate; auto.
    + rewrite list_lookup_insert_ne in Hj by exact Hne. auto.
  - pose proof (running_insert st i old new Hi) as Hr.
    destruct Ht; simpl in Hr; lia.
Qed.

Lemma inv_fire e st st' : inv st -> fire e st = Some st' -> inv st'.
Proof.
  intros Hinv Hf.
  apply fire_transition in Hf as (i & old & new & Hi & -> & Ht).
  eapply inv_step; eauto.
Qed.

Lemma inv_play es : forall st st',
  inv st -> play es st = Some st' -> inv st'.
Proof.
  induction es as [|e es IH]; simpl; intros st st' Hinv.
  - now intros [= <-].
  - destruct (fire e st) as [st1|] eqn:Hf; [|discriminate].
    apply IH. eapply inv_fire; eauto.
Qed.

Lemma inv_run es st : play es init = Some st -> inv st.
Proof. apply inv_play, inv_init. Qed.

Lemma fire_keeps_terminal e st st' u s :
  fire e st = Some st' -> st !! u = Some s -> terminal s = true ->
  st' !! u = Some s.
Proof.
  intros Hf Hu Hs.
  apply fire_transition in Hf as (i & old & new & Hi & -> & Ht).
  eapply step_keeps_terminal; eauto.
Qed.

(** A terminal state stays for the rest of the run. *)
Lemma play_keeps_terminal es : forall st st' u s,
  play es st = Some st' -> st !! u = Some s -> terminal s = true ->
  st' !! u = Some s.
Proof.
  induction es as [|e es IH]; simpl; intros st st' u s.
  - now intros [= <-].
  - destruct (fire e st) as [st1|] eqn:Hf; [|discriminate].
    intros Hp Hu Hs. eapply IH; eauto. eapply fire_keeps_terminal; eauto.
Qed.

End RunFacts.
End SchedulerFacts.


(** ** The string methods of the bodies *)

Module BodyFacts.
Import Re ReFacts Pipeline PipelineFacts Body.

Lemma is_prefix_app p t : is_prefix p (p ++ t) = true.
Proof.
  induction p as [|a p IH]; [reflexivity|]. simpl.
  now rewrite Ascii.eqb_refl.
Qed.

Lemma is_prefix_spec p s : is_prefix p s = true -> exists t, s = p ++ t.
Proof.
  revert s. induction p as [|a p IH]; intros s; [now exists s|].
  destruct s as [|b s]; simpl; [discriminate|].
  intros H. apply andb_true_iff in H as [Hab H].
  apply Ascii.eqb_eq in Hab as ->. destruct (IH _ H) as [t ->]. now exists t.
Qed.

Lemma occurs_app old u t : occurs old (u ++ old ++ t) = true.
Proof.
  induction u as [|a u IH].
  - destruct old; simpl; [now destruct t|].
    now rewrite Ascii.eqb_refl, is_prefix_app.
  - cbn [app occurs]. rewrite IH. apply orb_true_r.
Qed.

Lemma occurs_spec old s :
  occurs old s = true -> exists u t, s = u ++ old ++ t.
Proof.
  induction s as [|a s IH]; cbn [occurs]; intros H;
    apply orb_true_iff in H as [H|H]; try discriminate.
  - apply is_prefix_spec in H as [t ->]. now exists [], t.
  - apply is_prefix_spec in H as [t ->]. now exists [], t.
  - destruct (IH H) as (u & t & ->). now exists (a :: u), t.
Qed.

(** [free old w s]: no occurrence of [old] in [w ++ s] starts
    inside [w]. *)
Definition free (old w s : text) : Prop :=
  forall u v, w = u ++ v -> v <> [] -> is_prefix old (v ++ s) = false.

Lemma free_tail old a w s : free old (a :: w) s -> free old w s.
Proof. intros H u v -> Hv. apply (H (a :: u) v); auto. Qed.

Lemma free_head old a w s :
  free old (a :: w) s -> is_prefix old (a :: w ++ s) = false.
Proof. intros H. now apply (H [] (a :: w)). Qed.

Lemma free_nil old s : free old [] s.
Proof.
  intros u v H Hv. symmetry in H. apply app_eq_nil in H as [_ ->].
  contradiction.
Qed.

Lemma free_cons old a w s :
  is_prefix old (a :: w ++ s) = false -> free old w s ->
  free old (a :: w) s.
Proof.
  intros Ha Hw [|b u] v Huv Hv.
  - simpl in Huv. subst v. exact Ha.
  - injection Huv as <- ->. now apply (Hw u v).
Qed.

Lemma occurs_free old w s :
  free old w s -> occurs old (w ++ s) = occurs old s.
Proof.
  induction w as [|a w IH]; intros H; [reflexivity|].
  cbn [app occurs]. rewrite (free_head _ _ _ _ H), IH;
    eauto using free_tail.
Qed.

Lemma free_occurs old w s :
  occurs old (w ++ s) = false -> free old w s.
Proof.
  intros H u v -> Hv.
  destruct (is_prefix old (v ++ s)) eqn:Hp; [|reflexivity].
  apply is_prefix_spec in Hp as [t Ht].
  rewrite <- app_assoc, Ht, occurs_app in H. discriminate.
Qed.

(** A character that [old] does not start with starts no occurrence. *)
Lemma free_first c old w s :
  ~ In c w -> free (c :: old) w s.
Proof.
  intros Hc u [|b v] -> Hv; [contradiction|]. simpl.
  destruct (Ascii.eqb_spec c b) as [->|]; [|reflexivity].
  exfalso. apply Hc, in_or_app. right. now left.
Qed.

Lemma count_0_not_In a (w : text) : count a w = 0 -> ~ In a w.
Proof. unfold count. now rewrite <- count_occ_not_In. Qed.

(** A prefix of [n ++ b :: s] that has no [b] ends inside [n]. *)
Lemma is_prefix_before p n b s :
  ~ In b p -> is_prefix p (n ++ b :: s) = true -> is_prefix p n = true.
Proof.
  revert n. induction p as [|a p IH]; intros n Hb; [reflexivity|].
  destruct n as [|c n]; simpl.
  - intros H. apply andb_true_iff in H as [H _].
    apply Ascii.eqb_eq in H as ->. exfalso. apply Hb. now left.
  - intros H. apply andb_true_iff in H as [-> H]. simpl.
    apply IH; auto. intros Hin. apply Hb. now right.
Qed.

(** An occurrence that starts in [n] and has no [b] ends in [n]. *)
Lemma free_before old n b s :
  ~ In b old -> occurs old n = false -> free old n (b :: s).
Proof.
  intros Hb Ho u v -> Hv.
  destruct (is_prefix old (v ++ b :: s)) eqn:Hp; [exfalso|reflexivity].
  apply is_prefix_before in Hp; [|exact Hb].
  apply is_prefix_spec in Hp as [t ->]. rewrite occurs_app in Ho.
  discriminate.
Qed.

(** *** [replace] *)

Lemma replace_from_skip old new w s :
  replace_from old new (length w) (w ++ s) = replace_from old new 0 s.
Proof. induction w as [|a w IH]; [reflexivity|]. exact IH. Qed.

Lemma replace_from_here a old new s :
  replace_from (a :: old) new 0 ((a :: old) ++ s)
  = new ++ replace_from (a :: old) new 0 s.
Proof.
  pose proof (is_prefix_app (a :: old) s) as Hp. cbn [app] in Hp.
  cbn [app replace_from]. rewrite Hp. cbn [length].
  rewrite Nat.sub_succ, Nat.sub_0_r. now rewrite replace_from_skip.
Qed.

Lemma replace_from_free old new w s :
  free old w s ->
  replace_from old new 0 (w ++ s) = w ++ replace_from old new 0 s.
Proof.
  induction w as [|a w IH]; intros H; [reflexivity|].
  cbn [app replace_from]. rewrite (free_head _ _ _ _ H), IH;
    eauto using free_tail.
Qed.

Lemma replace_from_none old new s :
  occurs old s = false -> replace_from old new 0 s = s.
Proof.
  intros H. rewrite <- (app_nil_r s) at 1. rewrite replace_from_free.
  - now rewrite app_nil_r.
  - apply free_occurs. now rewrite app_nil_r.
Qed.

(** What [replace] does around the first occurrence of [old]. *)
Lemma str_replace_first w old new s :
  old <> [] -> free old w (old ++ s) ->
  str_replace (w ++ old ++ s) old new = w ++ new ++ str_replace s old new.
Proof.
  destruct old as [|a old]; [contradiction|]. intros _ H. unfold str_replace.
  now rewrite replace_from_free, replace_from_here.
Qed.

Lemma str_replace_none s old new :
  old <> [] -> occurs old s = false -> str_replace s old new = s.
Proof.
  destruct old as [|a old]; [contradiction|]. intros _ H.
  now apply replace_from_none.
Qed.

(** [/tmp.txt] in a path [d/name/tail]. *)
Lemma no_tmp_txt d name tail :
  ~ In "/"%char d -> count "/" name = 0 ->
  is_prefix (of_string "tmp.txt") name = false ->
  occurs (of_string "/tmp.txt") ("/"%char :: tail) = false ->
  str_replace (d ++ "/"%char :: name ++ "/"%char :: tail)
              (of_string "/tmp.txt") (of_string "")
  = d ++ "/"%char :: name ++ "/"%char :: tail.
Proof.
  intros Hd Hname Hp Htail. apply str_replace_none; [discriminate|].
  rewrite occurs_free by (apply free_first, Hd).
  cbn [occurs].
  rewrite (occurs_free _ name)
    by (apply free_first, count_0_not_In, Hname).
  rewrite Htail, orb_false_r.
  change (is_prefix (of_string "/tmp.txt") ("/"%char :: ?s))
    with (is_prefix (of_string "tmp.txt") s).
  match goal with |- ?b = false => destruct b eqn:Hq end; [|reflexivity].
  apply is_prefix_before in Hq; [congruence|].
  apply count_0_not_In. reflexivity.
Qed.

Lemma tmp_txt_removed d rest tail :
  ~ In "/"%char d -> count "/" rest = 0 ->
  occurs (of_string "/tmp.txt") ("/"%char :: tail) = false ->
  str_replace (d ++ of_string "/tmp.txt" ++ rest ++ "/"%char :: tail)
              (of_string "/tmp.txt") (of_string "")
  = d ++ rest ++ "/"%char :: tail.
Proof.
  intros Hd Hrest Htail.
  rewrite str_replace_first; [|discriminate|apply free_first, Hd].
  rewrite str_replace_none; [reflexivity|discriminate|].
  rewrite occurs_free; [exact Htail|].
  apply free_first, count_0_not_In, Hrest.
Qed.

(** *** Occurrences that cannot overlap *)

Lemma app_eq_prefix (a b c d : text) :
  a ++ b = c ++ d -> length a <= length c -> exists x, c = a ++ x.
Proof.
  intros H Hlen. apply app_eq_app in H as [l [[-> ->]|[-> ->]]].
  - rewrite length_app in Hlen. destruct l; [|simpl in Hlen; lia].
    exists []. now rewrite !app_nil_r.
  - now exists l.
Qed.

Lemma free_borderless old w s :
  borderless old = true -> occurs old w = false -> free old w (old ++ s).
Proof.
  intros Hb Ho u v -> Hv.
  destruct (is_prefix old (v ++ old ++ s)) eqn:Hp; [exfalso|reflexivity].
  apply is_prefix_spec in Hp as [t Ht].
  destruct (le_lt_dec (length old) (length v)) as [Hlen|Hlen].
  - symmetry in Ht. destruct (app_eq_prefix _ _ _ _ Ht Hlen) as [x ->].
    rewrite occurs_app in Ho. discriminate.
  - destruct (app_eq_prefix v (old ++ s) old t Ht) as [x ->]; [lia|].
    rewrite <- !app_assoc in Ht. apply app_inv_head in Ht.
    rewrite app_assoc in Ht.
    destruct (app_eq_prefix x t (v ++ x) s (eq_sym Ht)) as [y Hy].
    { rewrite length_app. lia. }
    unfold borderless in Hb. rewrite forallb_forall in Hb.
    specialize (Hb (length v)). rewrite drop_app_length in Hb.
    assert (Hx : is_prefix x (v ++ x) = true)
      by (rewrite Hy; apply is_prefix_app).
    assert (length v <> 0) by (destruct v; [contradiction|discriminate]).
    rewrite Hx in Hb. discriminate Hb. apply in_seq. lia.
Qed.

(** [old] at the end of a path, and nowhere before. *)
Lemma str_replace_suffix w old new :
  old <> [] -> borderless old = true -> occurs old w = false ->
  str_replace (w ++ old) old new = w ++ new.
Proof.
  intros Hne Hb Ho. rewrite <- (app_nil_r old) at 1.
  rewrite str_replace_first by auto using free_borderless.
  destruct old; [contradiction|]. now rewrite app_nil_r.
Qed.

(** The intermediate files of [run_mapping] for a name without the
    two markers. *)
Lemma run_mapping_body_eq infile name :
  occurs (of_string "_sorted.bam") name = false ->
  occurs (of_string ".sam") name = false ->
  run_mapping_body infile
    (of_string "mapped.dir/" ++ name ++ of_string "_sorted.bam")
  = {| tmp := of_string "mapped.dir/" ++ name ++ of_string ".sam";
       bamfile := of_string "mapped.dir/" ++ name ++ of_string ".bam" |}.
Proof.
  intros Hbam Hsam. unfold run_mapping_body.
  assert (Htmp : str_replace
                   (of_string "mapped.dir/" ++ name ++ of_string "_sorted.bam")
                   (of_string "_sorted.bam") (of_string ".sam")
                 = of_string "mapped.dir/" ++ name ++ of_string ".sam").
  { rewrite !app_assoc. apply str_replace_suffix;
      [discriminate|reflexivity|exact Hbam]. }
  rewrite Htmp. f_equal.
  rewrite !app_assoc. apply str_replace_suffix;
    [discriminate|reflexivity|exact Hsam].
Qed.

(** Only the characters that [p] is compared with count. *)
Lemma is_prefix_long p a x y :
  length p <= length a -> is_prefix p (a ++ x) = is_prefix p (a ++ y).
Proof.
  revert a. induction p as [|c p IH]; intros a Hlen; [reflexivity|].
  destruct a as [|b a]; simpl in *; [lia|].
  rewrite (IH a) by lia. reflexivity.
Qed.

Lemma free_longer old w s x :
  free old w (old ++ s) -> free old w (old ++ s ++ x).
Proof.
  intros H u v Hw Hv. rewrite <- (H u v Hw Hv).
  rewrite !(app_assoc v old). apply is_prefix_long.
  rewrite length_app. lia.
Qed.

(** The leftmost occurrence. *)
Lemma occurs_first old s :
  occurs old s = true ->
  exists u t, s = u ++ old ++ t /\ free old u (old ++ t).
Proof.
  induction s as [|a s IH]; cbn [occurs]; intros H.
  - rewrite orb_false_r in H. apply is_prefix_spec in H as [t Ht].
    exists [], t. split; [exact Ht|apply free_nil].
  - destruct (is_prefix old (a :: s)) eqn:Hp.
    + apply is_prefix_spec in Hp as [t Ht].
      exists [], t. split; [exact Ht|apply free_nil].
    + destruct (IH H) as (u & t & -> & Hc). exists (a :: u), t.
      split; [reflexivity|]. apply free_cons; auto.
Qed.

(** Removing [old] never makes a path longer, and makes it shorter by
    the length of [old] at least when [old] occurs. *)
Lemma length_replace_from old k s :
  length (replace_from old [] k s) <= length s.
Proof.
  revert k. induction s as [|a s IH]; intros k; [reflexivity|].
  cbn [replace_from]. destruct k as [|k].
  - destruct (is_prefix old (a :: s)); simpl.
    + specialize (IH (length old - 1)). lia.
    + specialize (IH 0). lia.
  - simpl. specialize (IH k). lia.
Qed.

Lemma length_str_replace s old :
  old <> [] -> length (str_replace s old []) <= length s.
Proof.
  destruct old as [|a old]; [contradiction|]. intros _.
  apply length_replace_from.
Qed.

Lemma length_str_replace_occurs s old :
  old <> [] -> occurs old s = true ->
  length (str_replace s old []) + length old <= length s.
Proof.
  intros Hne Ho. apply occurs_first in Ho as (u & t & -> & Hc).
  rewrite str_replace_first by auto. cbn [app].
  pose proof (length_str_replace t old Hne).
  rewrite !length_app. lia.
Qed.

(** Removing a marker that stands at the end of a path and also
    before: more than the marker at the end is lost. *)
Lemma length_str_replace_twice w old :
  old <> [] -> occurs old w = true ->
  length (str_replace (w ++ old) old []) < length w.
Proof.
  intros Hne Ho. apply occurs_first in Ho as (u & t & -> & Hc).
  rewrite <- !app_assoc.
  rewrite str_replace_first by auto using free_longer. cbn [app].
  assert (Ht : occurs old (t ++ old) = true).
  { rewrite <- (app_nil_r old) at 2. apply occurs_app. }
  pose proof (length_str_replace_occurs _ _ Hne Ht) as Hlen.
  rewrite !length_app in *. destruct old; [contradiction|]. simpl in *. lia.
Qed.

(** *** [join] and [split] *)

Lemma str_split_cons sep s : exists w ws, str_split sep s = w :: ws.
Proof.
  induction s as [|a s (w & ws & IH)]; simpl; eauto.
  destruct (Ascii.eqb a sep); eauto. rewrite IH. eauto.
Qed.

Lemma str_split_word sep x :
  count sep x = 0 -> str_split sep x = [x].
Proof.
  induction x as [|a x IH]; [reflexivity|]. rewrite count_cons. simpl.
  destruct (Ascii.eqb a sep); [discriminate|]. intros H.
  now rewrite IH.
Qed.

Lemma str_split_app sep x s :
  count sep x = 0 -> str_split sep (x ++ sep :: s) = x :: str_split sep s.
Proof.
  induction x as [|a x IH]; rewrite ?count_cons; simpl.
  - now rewrite Ascii.eqb_refl.
  - destruct (Ascii.eqb a sep); [discriminate|]. intros H.
    now rewrite IH.
Qed.

Lemma str_split_join sep l :
  l <> [] -> Forall (fun x => count sep x = 0) l ->
  str_split sep (str_join [sep] l) = l.
Proof.
  induction l as [|x l IH]; [contradiction|]. intros _ Hl.
  apply Forall_cons_iff in Hl as [Hx Hl]. destruct l as [|y l].
  - now apply str_split_word.
  - change (str_join [sep] (x :: y :: l))
      with (x ++ sep :: str_join [sep] (y :: l)).
    rewrite str_split_app by exact Hx. f_equal. now apply IH.
Qed.

End BodyFacts.

(** ** The jobs of the whole workflow *)

Module WorkflowFacts.
Import Re ReFacts Pipeline PipelineFacts Shape Naming Body BodyFacts Workflow.

(** *** Paths *)

Lemma ends_with_refl s : ends_with s s = true.
Proof. destruct s; simpl; [reflexivity|]. case_decide; congruence. Qed.

Lemma ends_with_app s n : ends_with s (n ++ s) = true.
Proof.
  induction n as [|a n IH]; [apply ends_with_refl|]. simpl.
  now case_decide.
Qed.

Lemma ends_with_spec s w : ends_with s w = true -> exists n, w = n ++ s.
Proof.
  induction w as [|a w IH]; simpl.
  - case_decide; subst; [now exists []|discriminate].
  - case_decide; subst; [now exists []|].
    intros He. destruct (IH He) as [n ->]. now exists (a :: n).
Qed.

Lemma last_component_app t h :
  count "/" t = 0 -> (h = [] \/ exists h', h = "/"%char :: h') ->
  last_component (t ++ h) = (t, h).
Proof.
  intros Ht Hh. induction t as [|a t IH].
  - destruct Hh as [->|[h' ->]]; reflexivity.
  - rewrite count_cons in Ht. cbn [app last_component].
    destruct (Ascii.eqb a "/"%char); [discriminate|].
    now rewrite IH by lia.
Qed.

Lemma ends_with_sep_rev X :
  ends_with_sep X = true -> exists r, rev X = "/"%char :: r.
Proof.
  unfold ends_with_sep. destruct (last X) as [c|] eqn:Hl; [|discriminate].
  intros Hc. apply Ascii.eqb_eq in Hc as ->.
  apply last_Some in Hl as [l ->]. rewrite rev_app_distr. simpl. eauto.
Qed.

Lemma not_ends_with_sep_rev X :
  X <> [] -> ends_with_sep X = false ->
  exists c r, rev X = c :: r /\ Ascii.eqb c "/"%char = false.
Proof.
  intros Hne. unfold ends_with_sep.
  destruct (rev X) as [|c r] eqn:Hr.
  - apply (f_equal (@rev ascii)) in Hr. rewrite rev_involutive in Hr.
    contradiction.
  - apply (f_equal (@rev ascii)) in Hr. rewrite rev_involutive in Hr.
    subst X. simpl. rewrite last_snoc. eauto.
Qed.

(** What [split] gives for a directory part that is empty or ends with
    a separator, followed by a name. *)
Lemma os_path_split_app X p :
  X = [] \/ ends_with_sep X = true -> count "/" p = 0 ->
  os_path_split (X ++ p) = ((os_path_split X).1, p).
Proof.
  intros HX Hp.
  assert (Hh : rev X = [] \/ exists h', rev X = "/"%char :: h').
  { destruct HX as [->|HX]; [now left|right].
    now apply ends_with_sep_rev. }
  unfold os_path_split. rewrite rev_app_distr.
  rewrite (last_component_app (rev p) (rev X))
    by (rewrite ?count_rev; auto).
  pose proof (last_component_app [] (rev X) eq_refl Hh) as E.
  cbn [app] in E. rewrite E, (rev_involutive p). reflexivity.
Qed.

(** The directory part of [DATADIR/*suffix]. *)
Definition dir (D : text) : text := (os_path_split (os_path_join D [])).1.

Lemma no_sep_start p : count "/" p = 0 -> starts_with_sep p = false.
Proof.
  destruct p as [|a p]; [reflexivity|]. rewrite count_cons. simpl.
  now destruct (Ascii.eqb a "/"%char).
Qed.

Lemma os_path_join_app D p :
  starts_with_sep p = false -> os_path_join D p = os_path_join D [] ++ p.
Proof.
  intros Hp. unfold os_path_join. rewrite Hp. cbn [starts_with_sep].
  destruct ((length D =? 0) || ends_with_sep D).
  - now rewrite app_nil_r.
  - now rewrite <- app_assoc.
Qed.

Lemma os_path_join_nil D :
  os_path_join D [] = [] \/ ends_with_sep (os_path_join D []) = true.
Proof.
  unfold os_path_join. cbn [starts_with_sep].
  destruct (length D =? 0) eqn:Hlen; cbn [orb].
  - left. apply Nat.eqb_eq in Hlen. destruct D; [reflexivity|discriminate].
  - destruct (ends_with_sep D) eqn:Hs; right.
    + now rewrite app_nil_r.
    + unfold ends_with_sep. rewrite last_snoc. reflexivity.
Qed.

Lemma glob_join D p names :
  count "/" p = 0 ->
  glob names (os_path_join D p)
  = map (os_path_join (dir D)) (List.filter (star_match p) names).
Proof.
  intros Hp. unfold glob.
  rewrite os_path_join_app by now apply no_sep_start.
  rewrite os_path_split_app by auto using os_path_join_nil. reflexivity.
Qed.

(** The two glob patterns of [SEQUENCEFILES] list the same directory. *)
Lemma input_files_eq DATADIR names :
  input_files DATADIR names
  = map (os_path_join (dir (of_string DATADIR)))
        (List.filter (star_match (of_string "*.fastq.gz")) names
         ++ List.filter (star_match (of_string "*.fastq.1.gz")) names).
Proof.
  unfold input_files, SEQUENCEFILES, SEQUENCESUFFIXES. cbn [map concat].
  rewrite !glob_join by reflexivity. now rewrite app_nil_r, map_app.
Qed.

Lemma joinable_spec DATADIR :
  joinable DATADIR = true ->
  of_string DATADIR <> [] /\ ends_with_sep (of_string DATADIR) = false.
Proof.
  unfold joinable. intros H. apply andb_true_iff in H as [Hlen Hs].
  apply negb_true_iff in Hlen, Hs. split; [|exact Hs].
  intros E. rewrite E in Hlen. discriminate.
Qed.

Lemma os_path_join_joinable D f :
  D <> [] -> ends_with_sep D = false -> starts_with_sep f = false ->
  os_path_join D f = D ++ "/"%char :: f.
Proof.
  intros Hne Hs Hf. unfold os_path_join. rewrite Hf, Hs.
  destruct D; [contradiction|reflexivity].
Qed.

Lemma os_path_split_sep D :
  D <> [] -> ends_with_sep D = false ->
  (os_path_split (D ++ ["/"%char])).1 = D.
Proof.
  intros Hne Hs.
  destruct (not_ends_with_sep_rev D Hne Hs) as (c & r & Hr & Hc).
  unfold os_path_split. rewrite rev_app_distr. cbn [rev app last_component].
  rewrite Ascii.eqb_refl. cbn [fst drop_seps]. rewrite Ascii.eqb_refl, Hr.
  cbn [drop_seps]. rewrite Hc, <- (rev_involutive D), Hr. reflexivity.
Qed.

Lemma dir_joinable D :
  D <> [] -> ends_with_sep D = false -> dir D = D.
Proof.
  intros Hne Hs. unfold dir.
  rewrite os_path_join_joinable by auto. now apply os_path_split_sep.
Qed.

(** *** Lists of inputs *)

Lemma concat_map_one {A B} (g : A -> list B) (h : A -> B) l :
  (forall x, In x l -> g x = [h x]) -> concat (map g l) = map h l.
Proof.
  induction l as [|x l IH]; simpl; intros H; [reflexivity|].
  rewrite H by auto. simpl. now rewrite IH by auto.
Qed.

(** A [@transform] that makes one job of every input taken alone makes
    one job of each, in their order. *)
Lemma transform_map {A} (l : list A) (path out : A -> text) pat tmpl :
  transform [] pat tmpl = Some [] ->
  (forall x, In x l ->
     transform [path x] pat tmpl
     = Some [{| j_inputs := [path x]; j_output := out x |}]) ->
  transform (map path l) pat tmpl
  = Some (map (fun x => {| j_inputs := [path x]; j_output := out x |}) l).
Proof.
  unfold transform.
  destruct (compile pat) as [p|]; [|discriminate].
  destruct (parse_template (of_string tmpl)) as [t|]; [|discriminate].
  intros _ H. f_equal. rewrite map_map. apply concat_map_one.
  intros x Hx. specialize (H x Hx). cbn [map concat] in H.
  rewrite app_nil_r in H. now injection H.
Qed.

(** *** The samples of a tidy directory *)

Lemma usual_char_nonspace w :
  forallb usual_char w = true -> nonspace w /\ count "/" w = 0.
Proof.
  induction w as [|a w IH]; cbn [forallb]; intros H.
  - split; [constructor|reflexivity].
  - apply andb_true_iff in H as [Ha H]. destruct (IH H) as [Hn Hc].
    unfold usual_char in Ha. apply andb_true_iff in Ha as [Ha1 Ha2].
    apply negb_true_iff in Ha2. split; [now constructor|].
    rewrite count_cons, Ha2, Hc. reflexivity.
Qed.

(** A name that [*.fastq.gz] lists is the name of a sample, which is
    not empty, and [.fastq.gz]. *)
Lemma fastq_gz_sample f :
  star_match (of_string "*.fastq.gz") f = true ->
  f = sample f ++ of_string ".fastq.gz" /\ sample f <> [].
Proof.
  destruct f as [|c f]; [discriminate|].
  change (star_match _ (c :: f))
    with (negb (Ascii.eqb c "."%char)
          && ends_with (of_string ".fastq.gz") (c :: f)).
  intros H. apply andb_true_iff in H as [Hc He].
  apply ends_with_spec in He as [n Hn]. unfold sample. rewrite Hn.
  change 9 with (length (of_string ".fastq.gz")).
  rewrite firstn_consumed. split; [reflexivity|].
  intros ->. injection Hn as -> _. discriminate.
Qed.

Lemma In_fastq_gz names f :
  tidy names = true -> In f (fastq_gz names) ->
  f = sample f ++ of_string ".fastq.gz" /\ sample f <> [] /\
  nonspace (sample f) /\ count "/" (sample f) = 0 /\ count "/" f = 0.
Proof.
  unfold tidy, fastq_gz. rewrite forallb_forall. intros Ht Hf.
  apply filter_In in Hf as [Hin Hm]. specialize (Ht f Hin).
  apply andb_true_iff in Ht as [Hu _].
  destruct (fastq_gz_sample f Hm) as [Hf Hne].
  destruct (usual_char_nonspace f Hu) as [_ Hc].
  rewrite Hf in Hu. rewrite forallb_app in Hu.
  apply andb_true_iff in Hu as [Hu _].
  destruct (usual_char_nonspace _ Hu). auto.
Qed.

Lemma tidy_no_fastq_1_gz names :
  tidy names = true ->
  List.filter (star_match (of_string "*.fastq.1.gz")) names = [].
Proof.
  unfold tidy. induction names as [|f names IH]; [reflexivity|].
  cbn [forallb List.filter]. intros H. apply andb_true_iff in H as [Hf H].
  apply andb_true_iff in Hf as [_ Hf]. apply negb_true_iff in Hf.
  rewrite Hf. auto.
Qed.

(** The input files of [run_mapping] in a tidy directory. *)
Lemma input_files_tidy DATADIR names :
  joinable DATADIR = true -> tidy names = true ->
  input_files DATADIR names
  = map (fun n => of_string DATADIR ++ of_string "/" ++ n
                  ++ of_string ".fastq.gz")
        (samples names).
Proof.
  intros HD Ht. apply joinable_spec in HD as [Hne Hs].
  rewrite input_files_eq, tidy_no_fastq_1_gz, app_nil_r by exact Ht.
  rewrite dir_joinable by auto. unfold samples. rewrite map_map.
  apply map_ext_in. intros f Hf.
  destruct (In_fastq_gz names f Ht Hf) as (Hsuf & _ & _ & _ & Hc).
  rewrite os_path_join_joinable by auto using no_sep_start.
  now rewrite <- Hsuf.
Qed.

Lemma In_samples names n :
  tidy names = true -> In n (samples names) ->
  n <> [] /\ nonspace n /\ count "/" n = 0.
Proof.
  intros Ht Hn. unfold samples in Hn. apply in_map_iff in Hn as (f & <- & Hf).
  destruct (In_fastq_gz names f Ht Hf) as (_ & ? & ? & ? & _). auto.
Qed.

(** *** The jobs of a tidy directory *)

Lemma transform_samples pat tmpl before after t (out : text -> text) ns :
  compile pat
  = Some {| p_re := shape (classes before) (classes after); p_groups := 1 |} ->
  parse_template (of_string tmpl) = Some t ->
  (forall n, expand t 1 [(1, n)] = Some (out n)) ->
  (forall n, In n ns -> n <> [] /\ nonspace n /\ count "/" n = 0) ->
  transform (map (fun n => before ++ n ++ after) ns) pat tmpl
  = Some (map (fun n => {| j_inputs := [before ++ n ++ after];
                           j_output := out n |}) ns).
Proof.
  intros Hp Ht Hout Hns. apply (transform_map ns).
  - unfold transform. now rewrite Hp, Ht.
  - intros n Hn. destruct (Hns n Hn) as (Hne & Hsp & _).
    eapply transform_one; eauto.
Qed.

Definition fastq (DATADIR : string) (n : text) : text :=
  of_string DATADIR ++ of_string "/" ++ n ++ of_string ".fastq.gz".

Definition bam (n : text) : text :=
  of_string "mapped.dir/" ++ n ++ of_string "_sorted.bam".

Definition snf (n : text) : text :=
  of_string "Sniffles.dir/" ++ n ++ of_string "/output.snf".

Definition one (ns : list text) (input output : text -> text) : list job :=
  map (fun n => {| j_inputs := [input n]; j_output := output n |}) ns.

Lemma outputs_one ns input output :
  outputs (one ns input output) = map output ns.
Proof. unfold outputs, one. now rewrite map_map. Qed.

(** The jobs that a tidy directory with the samples [ns] gives. *)
Definition expected (DATADIR : string) (ns : list text) (t : Tasks.task)
    : list job :=
  match t with
  | Tasks.run_mapping => one ns (fastq DATADIR) bam
  | Tasks.run_clair3 =>
      one ns bam (fun n => of_string "Clair.dir/" ++ n
                           ++ of_string "/full_alignment.vcf.gz")
  | Tasks.filter_variants => []
  | Tasks.run_sniffles => one ns bam snf
  | Tasks.merge_sniffles =>
      [{| j_inputs := map snf ns;
          j_output := of_string "Sniffles.dir/merged.vcf.gz" |}]
  | Tasks.merge_sniffles_variants =>
      one ns snf (fun n => of_string "filtered_vcf.dir/" ++ n
                           ++ of_string "_sniffles_Qual30_output.vcf.gz")
  | Tasks.mosdepth =>
      one ns bam (fun n => of_string "coverage.dir/" ++ n
                           ++ of_string ".mosdepth.summary.txt")
  | Tasks.run_bamcoverage =>
      one ns bam (fun n => of_string "mapped.dir/" ++ n ++ of_string ".bw")
  | Tasks.full => []
  end.

Lemma run_mapping_tidy DATADIR names :
  plain DATADIR = true -> joinable DATADIR = true -> tidy names = true ->
  run_mapping DATADIR names
  = Some (one (samples names) (fastq DATADIR) bam).
Proof.
  intros Hplain HD Ht. unfold run_mapping, run_mapping_on.
  rewrite input_files_tidy by auto.
  apply (transform_map (samples names) (fastq DATADIR) bam).
  - unfold transform. now rewrite compile_run_mapping.
  - intros n Hn. destruct (In_samples names n Ht Hn) as (Hne & Hsp & _).
    unfold fastq. rewrite (app_assoc (of_string DATADIR)).
    eapply transform_one; [|reflexivity|reflexivity|exact Hne|exact Hsp].
    rewrite compile_run_mapping by exact Hplain. now rewrite mapping_re_shape.
Qed.

Lemma from_bam tmpl t (out : text -> text) ns :
  parse_template (of_string tmpl) = Some t ->
  (forall n, expand t 1 [(1, n)] = Some (out n)) ->
  (forall n, In n ns -> n <> [] /\ nonspace n /\ count "/" n = 0) ->
  transform (map bam ns) "mapped.dir/(\S+)_sorted.bam" tmpl
  = Some (one ns bam out).
Proof.
  intros Ht Hout Hns.
  apply (transform_samples _ _ (of_string "mapped.dir/")
           (of_string "_sorted.bam") t); auto.
Qed.

Lemma jobs_tidy DATADIR names t :
  plain DATADIR = true -> joinable DATADIR = true -> tidy names = true ->
  jobs DATADIR names t = Some (expected DATADIR (samples names) t).
Proof.
  intros Hplain HD Ht.
  pose proof (In_samples names) as Hns. specialize (fun n => Hns n Ht).
  assert (Hsnf : run_sniffles (one (samples names) (fastq DATADIR) bam)
                 = Some (one (samples names) bam snf)).
  { unfold run_sniffles. rewrite outputs_one.
    eapply from_bam; eauto; reflexivity. }
  assert (Hclair : run_clair3 (one (samples names) (fastq DATADIR) bam)
                   = Some (expected DATADIR (samples names) Tasks.run_clair3)).
  { unfold run_clair3, run_clair3_regex. rewrite outputs_one.
    eapply from_bam; eauto; reflexivity. }
  unfold jobs. rewrite run_mapping_tidy by auto. cbn [mbind option_bind].
  destruct t; cbn [expected]; auto.
  - (* filter_variants *)
    rewrite Hclair. cbn [mbind option_bind expected]. unfold filter_variants.
    rewrite outputs_one.
    destruct (compile filter_variants_regex) as [p3|] eqn:Hp3;
      [|vm_compute in Hp3; discriminate].
    eapply (transform_few _ _ _ p3); [exact Hp3|reflexivity|].
    intros o Ho. apply in_map_iff in Ho as (n & <- & Hn).
    destruct (Hns n Hn) as (_ & _ & Hc).
    vm_compute in Hp3. injection Hp3 as <-.
    rewrite !count_app, Hc. vm_compute. lia.
  - (* merge_sniffles *)
    rewrite Hsnf. cbn [fmap option_fmap option_map].
    unfold merge_sniffles, merge.
    now rewrite outputs_one.
  - (* merge_sniffles_variants *)
    rewrite Hsnf. cbn [mbind option_bind]. unfold merge_sniffles_variants.
    rewrite outputs_one.
    eapply (transform_samples _ _ (of_string "Sniffles.dir/")
              (of_string "/output.snf")); eauto; reflexivity.
  - (* mosdepth *)
    unfold mosdepth. rewrite outputs_one. eapply from_bam; eauto; reflexivity.
  - (* run_bamcoverage *)
    unfold run_bamcoverage. rewrite outputs_one. eapply from_bam; eauto;
      reflexivity.
Qed.

(** *** The order of the listing *)

Lemma filter_Permutation {A} (f : A -> bool) l1 l2 :
  Permutation l1 l2 -> Permutation (List.filter f l1) (List.filter f l2).
Proof.
  induction 1 as [|x l1 l2 _ IH|x y l|l1 l2 l3 _ IH1 _ IH2]; simpl.
  - constructor.
  - destruct (f x); [now constructor|exact IH].
  - destruct (f x), (f y); try reflexivity. constructor.
  - now transitivity (List.filter f l2).
Qed.

Lemma samples_Permutation listing names :
  Permutation listing names -> Permutation (samples listing) (samples names).
Proof.
  intros H. unfold samples, fastq_gz.
  now apply Permutation_map, filter_Permutation.
Qed.

Lemma forallb_Permutation {A} (f : A -> bool) l1 l2 :
  Permutation l1 l2 -> forallb f l1 = forallb f l2.
Proof.
  induction 1 as [|x l1 l2 _ IH|x y l|l1 l2 l3 _ IH1 _ IH2];
    cbn [forallb].
  - reflexivity.
  - now rewrite IH.
  - now destruct (f x), (f y).
  - now rewrite IH1.
Qed.

Lemma tidy_Permutation listing names :
  Permutation listing names -> tidy listing = tidy names.
Proof. apply forallb_Permutation. Qed.

(** *** Different samples, different outputs *)

Lemma samples_NoDup names :
  tidy names = true -> List.NoDup names -> List.NoDup (samples names).
Proof.
  intros Ht Hnd. unfold samples.
  apply List.NoDup_map_NoDup_ForallPairs;
    [|now apply List.NoDup_filter].
  intros f1 f2 H1 H2 Heq.
  destruct (In_fastq_gz names f1 Ht H1) as (E1 & _).
  destruct (In_fastq_gz names f2 Ht H2) as (E2 & _).
  now rewrite E1, E2, Heq.
Qed.

Lemma between_NoDup (before after : text) ns :
  List.NoDup ns -> List.NoDup (map (fun n => before ++ n ++ after) ns).
Proof.
  intros Hnd. apply List.NoDup_map_NoDup_ForallPairs; [|exact Hnd].
  intros n1 n2 _ _ H. apply app_inv_head in H. now apply app_inv_tail in H.
Qed.

(** *** The directories of the outputs *)

Lemma ends_with_sep_app A n :
  n <> [] -> count "/" n = 0 -> ends_with_sep (A ++ n) = false.
Proof.
  intros Hne Hc. destruct (exists_last Hne) as (l & c & ->).
  rewrite app_assoc. unfold ends_with_sep. rewrite last_snoc.
  rewrite count_app, count_cons in Hc.
  destruct (Ascii.eqb c "/"%char); [lia|reflexivity].
Qed.

Lemma os_path_dirname_in d p :
  d <> [] -> ends_with_sep d = false -> count "/" p = 0 ->
  os_path_dirname (d ++ "/"%char :: p) = d.
Proof.
  intros Hne Hs Hp. unfold os_path_dirname.
  change (d ++ "/"%char :: p) with (d ++ ["/"%char] ++ p).
  rewrite app_assoc, os_path_split_app; auto.
  - now apply os_path_split_sep.
  - right. unfold ends_with_sep. now rewrite last_snoc.
Qed.

(** *** A directory name that takes no separator *)

Lemma not_joinable_spec DATADIR :
  joinable DATADIR = false ->
  os_path_join (of_string DATADIR) [] = of_string DATADIR.
Proof.
  unfold joinable, os_path_join. cbn [starts_with_sep]. intros H.
  apply andb_false_iff in H as [H|H]; apply negb_false_iff in H; rewrite H.
  - now rewrite app_nil_r.
  - now rewrite orb_true_r, app_nil_r.
Qed.

(** The paths listed below such a directory have no more separators
    than its name, one fewer than the pattern of [run_mapping]. *)
Lemma run_mapping_not_joinable DATADIR names :
  plain DATADIR = true -> joinable DATADIR = false ->
  Forall (fun f => count "/" f = 0) names ->
  run_mapping DATADIR names = Some [].
Proof.
  intros Hplain HD Hc. rewrite List.Forall_forall in Hc.
  unfold run_mapping, run_mapping_on.
  eapply transform_few;
    [apply compile_run_mapping, Hplain|reflexivity|]. cbn [p_re].
  intros i Hi. rewrite lits_mapping_re by exact Hplain.
  rewrite input_files_eq in Hi. apply in_map_iff in Hi as (n & <- & Hn).
  assert (Hn0 : count "/" n = 0)
    by (apply Hc; apply in_app_or in Hn as [Hn|Hn];
        now apply filter_In in Hn).
  pose proof (count_join_dirname (os_path_join (of_string DATADIR) []) n)
    as Hle.
  fold (dir (of_string DATADIR)) in Hle.
  rewrite (not_joinable_spec DATADIR HD), Hn0 in Hle. lia.
Qed.

(** *** The two glob patterns *)

Lemma os_path_join_inj d n1 n2 :
  starts_with_sep n1 = false -> starts_with_sep n2 = false ->
  os_path_join d n1 = os_path_join d n2 -> n1 = n2.
Proof.
  intros H1 H2. rewrite (os_path_join_app d n1), (os_path_join_app d n2)
    by assumption.
  apply app_inv_head.
Qed.

Lemma fastq_gz_not_fastq_1_gz f :
  star_match (of_string "*.fastq.gz") f = true ->
  star_match (of_string "*.fastq.1.gz") f = false.
Proof.
  destruct f as [|c f]; [discriminate|].
  change (star_match (of_string "*.fastq.gz") (c :: f))
    with (negb (Ascii.eqb c "."%char)
          && ends_with (of_string ".fastq.gz") (c :: f)).
  change (star_match (of_string "*.fastq.1.gz") (c :: f))
    with (negb (Ascii.eqb c "."%char)
          && ends_with (of_string ".fastq.1.gz") (c :: f)).
  intros H. apply andb_true_iff in H as [-> H]. cbn [andb].
  destruct (ends_with (of_string ".fastq.1.gz") (c :: f)) eqn:H1;
    [exfalso|reflexivity].
  apply ends_with_spec in H as [n Hn]. apply ends_with_spec in H1 as [n1 Hn1].
  rewrite Hn in Hn1. apply (f_equal (@rev ascii)) in Hn1.
  rewrite !rev_app_distr in Hn1. simpl in Hn1. discriminate.
Qed.

(** The directory of [d/name+ext] and of [d+name/file]. *)
Lemma dirname_flat (d ext : string) n :
  of_string d <> [] -> ends_with_sep (of_string d) = false ->
  count "/" (of_string ext) = 0 -> count "/" n = 0 ->
  os_path_dirname (of_string d ++ "/"%char :: n ++ of_string ext)
  = of_string d.
Proof.
  intros Hne Hs He Hn. apply os_path_dirname_in; auto.
  rewrite count_app. lia.
Qed.

Lemma dirname_deep (d file : string) n :
  count "/" (of_string file) = 0 -> n <> [] -> count "/" n = 0 ->
  os_path_dirname (of_string d ++ n ++ "/"%char :: of_string file)
  = of_string d ++ n.
Proof.
  intros Hf Hne Hn. rewrite app_assoc. apply os_path_dirname_in; auto.
  - destruct (of_string d), n; try discriminate. contradiction.
  - now apply ends_with_sep_app.
Qed.

End WorkflowFacts.

(** ** The tasks and what they follow *)

Module TasksFacts.
Import Tasks.

(** How far a task is from the input files. *)
Definition rank (t : task) : nat :=
  match t with
  | run_mapping => 0
  | run_clair3 | run_sniffles | mosdepth | run_bamcoverage => 1
  | filter_variants | merge_sniffles | merge_sniffles_variants => 2
  | full => 3
  end.

Lemma upstream_rank u v : In v (upstream u) -> rank v < rank u.
Proof. destruct u; simpl; intuition (subst; simpl; lia). Qed.

Lemma needs_rank t u : needs t u -> u = t \/ rank u < rank t.
Proof.
  induction 1 as [|u v _ IH Hv]; [now left|right].
  apply upstream_rank in Hv. destruct IH as [->|IH]; lia.
Qed.

Lemma needs_trans t u v : needs t u -> needs u v -> needs t v.
Proof.
  intros Hu. induction 1 as [|v w _ IH Hw]; [exact Hu|].
  now apply (needs_step t v w).
Qed.

Lemma reach_needs n t u : In u (reach n t) -> needs t u.
Proof.
  revert t. induction n as [|n IH]; intros t; simpl.
  - intros [<-|[]]. constructor.
  - intros [<-|H]; [constructor|]. apply in_flat_map in H as (v & Hv & H).
    apply (needs_trans t v u); [|now apply IH].
    eapply needs_step; [constructor|exact Hv].
Qed.

Lemma reach_closed t u v :
  In u (reach (length all_tasks) t) -> In v (upstream u) ->
  In v (reach (length all_tasks) t).
Proof.
  intros Hu Hv. destruct t; vm_compute in Hu;
    repeat (destruct Hu as [<-|Hu]; [vm_compute in Hv; vm_compute; tauto|]);
    destruct Hu.
Qed.

Lemma needs_reach t u : needs t u -> In u (reach (length all_tasks) t).
Proof.
  induction 1 as [|u v _ IH Hv]; [now left|].
  eapply reach_closed; eauto.
Qed.

Lemma needed_spec t u : needed t u = true <-> needs t u.
Proof.
  unfold needed. rewrite bool_decide_eq_true, list_elem_of_In.
  split; [apply reach_needs|apply needs_reach].
Qed.

End TasksFacts.

(** ** Loading the module *)

Module InitFacts.
Import Re Pipeline.

Lemma DATADIR_value (only_import : bool) (PARAMS : gmap string Config.pyval) :
  Config.DATADIR only_import PARAMS
  = match PARAMS !! "data" with
    | None =>
        if only_import
        then Config.Ok (Config.VStr "",
                        <["data" := Config.VStr ""]> PARAMS)
        else Config.Raise (Config.KeyError "missing parameter accessed")
    | Some v =>
        Config.Ok (if Config.eq_int v 0 then Config.VStr "."
                   else if Config.eq_int v 1 then Config.VStr "data.dir"
                   else v,
                   PARAMS)
    end.
Proof.
  unfold Config.DATADIR, Config.getitem, Config.try_except_else.
  destruct (PARAMS !! "data") as [v|] eqn:H.
  - cbn. rewrite H. cbn. destruct (Config.eq_int v 0); [reflexivity|].
    rewrite H. cbn. destruct (Config.eq_int v 1); [reflexivity|].
    now rewrite H.
  - destruct only_import; [|reflexivity].
    cbn. repeat (rewrite lookup_insert_eq; cbn). reflexivity.
Qed.

Lemma load_value (only_import : bool) (PARAMS : gmap string Config.pyval) :
  Init.load only_import PARAMS
  = match PARAMS !! "data" with
    | None =>
        if only_import then inr (SEQUENCEFILES "")
        else inl (Init.Block (Config.KeyError "missing parameter accessed"))
    | Some v =>
        if Config.eq_int v 0 then inr (SEQUENCEFILES ".")
        else if Config.eq_int v 1 then inr (SEQUENCEFILES "data.dir")
        else match v with
             | Config.VStr d => inr (SEQUENCEFILES d)
             | _ => inl Init.TypeError
             end
    end.
Proof.
  unfold Init.load. rewrite DATADIR_value.
  destruct (PARAMS !! "data") as [v|].
  - destruct (Config.eq_int v 0); [reflexivity|].
    destruct (Config.eq_int v 1); [reflexivity|].
    now destruct v.
  - now destruct only_import.
Qed.

End InitFacts.


(** * The claims *)

Import Re ReFacts Pipeline PipelineFacts Shape Naming.
Import Scheduler SchedulerFacts Runs.

(** C5. A many-to-one ([@merge]) declaration, such as [merge_sniffles],
    creates exactly one instance, whose inputs are the outputs of all
    the upstream instances; and in no state of a run is that instance
    ready (or further: running, succeeded, skipped, failed by its own
    action) unless every upstream instance has reached a terminal state,
    succeeded or skipped. *)
Theorem merge_fan_in (upstream_jobs : list job) (output : string) :
  merge_sniffles upstream_jobs
  = merge (outputs upstream_jobs) "Sniffles.dir/merged.vcf.gz" /\
  exists j,
    merge (outputs upstream_jobs) output = [j] /\
    j_inputs j = outputs upstream_jobs /\
    forall jobs is_stale limit es st m s,
      jobs !! m = Some j ->
      play jobs is_stale limit es (init jobs) = Some st ->
      st !! m = Some s -> started s = true ->
      forall u ju, jobs !! u = Some ju -> In ju upstream_jobs ->
        st !! u = Some Succeeded \/ st !! u = Some Skipped.
Proof.
  split; [reflexivity|]. eexists. split; [reflexivity|].
  split; [reflexivity|].
  intros jobs is_stale limit es st m s Hm Hrun Hs Hstarted u ju Hu Hin.
  pose proof (inv_run jobs is_stale limit es st Hrun) as Hinv.
  pose proof (inv_started jobs limit st Hinv m s Hs Hstarted) as Hdone.
  rewrite preds_done_spec in Hdone.
  assert (Hc : consumes jobs m u = true).
  { unfold consumes. rewrite Hm, Hu. simpl. apply existsb_exists.
    exists (j_output ju). split.
    - unfold outputs. apply in_map_iff. eauto.
    - unfold text_eqb. now apply bool_decide_eq_true_2. }
  specialize (Hdone u Hc).
  destruct (st !! u) as [[]|]; try discriminate; auto.
Qed.

Lemma merge_fan_in_witness :
  exists j,
    merge_sniffles three_sniffles = [j] /\
    j_inputs j = outputs three_sniffles /\
    play (three_sniffles ++ [j]) (fun _ _ => true) 2 three_then_merge
         (init (three_sniffles ++ [j]))
    = Some [Succeeded; Succeeded; Succeeded; Ready] /\
    ([Succeeded; Succeeded; Succeeded; Ready] !! 2 = Some Succeeded \/
     [Succeeded; Succeeded; Succeeded; Ready] !! 2 = Some Skipped).
Proof.
  destruct (merge_fan_in three_sniffles "Sniffles.dir/merged.vcf.gz")
    as (_ & j & Hone & Hinputs & Hready).
  exists j. split; [exact Hone|]. split; [exact Hinputs|].
  injection Hone as <-. split; [reflexivity|].
  apply (Hready (three_sniffles ++ merge_sniffles three_sniffles)
           (fun _ _ => true) 2 three_then_merge
           [Succeeded; Succeeded; Succeeded; Ready] 3 Ready
           eq_refl eq_refl eq_refl eq_refl
           2 {| j_inputs := [of_string "mapped.dir/c_sorted.bam"];
                j_output := of_string "Sniffles.dir/c/output.snf" |}
           eq_refl).
  right. right. left. reflexivity.
Defined.

(** The merge instance cannot be promoted while an upstream instance is
    still running. *)
Example merge_waits_for_all :
  play (three_sniffles ++ merge_sniffles three_sniffles)
       (fun _ _ => true) 2
       [ Promote 0; Promote 1; Promote 2; Dispatch 0; Dispatch 1;
         Complete 0 true; Dispatch 2; Complete 2 true; Promote 3 ]
       (init (three_sniffles ++ merge_sniffles three_sniffles))
  = None.
Proof. reflexivity. Qed.

(** C7. With a concurrency limit [limit], no state of a run has more
    than [limit] instances running; once [limit] instances are running,
    no further instance is dispatched, however many are ready. *)
Theorem concurrency_limit_respected (jobs : list job)
    (is_stale : nat -> run_state -> bool) (limit : nat)
    (es : list event) (st : run_state) :
  play jobs is_stale limit es (init jobs) = Some st ->
  running st <= limit /\
  (running st = limit ->
   forall i, fire jobs is_stale limit (Dispatch i) st = None).
Proof.
  intros Hrun. split.
  - exact (inv_limit jobs limit st (inv_run jobs is_stale limit es st Hrun)).
  - intros Hfull i. simpl. rewrite Hfull.
    destruct (Nat.ltb_spec limit limit); [lia|].
    now rewrite andb_false_r.
Qed.

Lemma concurrency_limit_respected_witness :
  play five_independent (fun _ _ => true) 2 five_ready_two_dispatched
       (init five_independent)
  = Some [Running; Running; Ready; Ready; Ready] /\
  running [Running; Running; Ready; Ready; Ready] <= 2 /\
  fire five_independent (fun _ _ => true) 2 (Dispatch 2)
       [Running; Running; Ready; Ready; Ready] = None.
Proof.
  split; [reflexivity|].
  destruct (concurrency_limit_respected five_independent (fun _ _ => true) 2
              five_ready_two_dispatched
              [Running; Running; Ready; Ready; Ready] eq_refl)
    as [Hle Hfull].
  split; [exact Hle|]. apply Hfull. reflexivity.
Defined.

(** C8, as stated, fails: [DATADIR] is pasted into the pattern of
    [run_mapping] unescaped, and a directory name with a group in it
    takes the place of group 1.  For the directory
    [(x/full_alignment.vcf.gz/pileup.vcf.gz/y)\S+] the name of the
    sample is [x/full_alignment.vcf.gz/pileup.vcf.gz/y], whatever the
    file is called; the path that [run_clair3] writes for it is matched
    by the pattern of [filter_variants], and [filter_variants] has a
    job. *)
Lemma filter_variants_job_created :
  input_files "(x/full_alignment.vcf.gz/pileup.vcf.gz/y)\S+"
    [of_string "s1.fastq.gz"]
  = [of_string
       "(x/full_alignment.vcf.gz/pileup.vcf.gz/y)\S+/s1.fastq.gz"] /\
  exists mapped called,
    run_mapping "(x/full_alignment.vcf.gz/pileup.vcf.gz/y)\S+"
      [of_string "s1.fastq.gz"] = Some mapped /\
    sample_names mapped
    = [of_string "x/full_alignment.vcf.gz/pileup.vcf.gz/y"] /\
    run_clair3 mapped = Some called /\
    outputs called
    = [of_string "(Clair.dir/" ++
       of_string "x/full_alignment.vcf.gz/pileup.vcf.gz/y" ++
       of_string "/full_alignment.vcf.gz"] /\
    matched filter_variants_regex
      (of_string "Clair.dir/" ++
       of_string "x/full_alignment.vcf.gz/pileup.vcf.gz/y" ++
       of_string "/full_alignment.vcf.gz")
    = true /\
    filter_variants called
    = Some [{| j_inputs := outputs called;
               j_output :=
                 of_string "(filtered_vcf.dir/x_Qual30_full_alignment.vcf.gz"
                 ++ of_string "/y/full_alignment.vcf.gz" |}].
Proof.
  split; [vm_compute; reflexivity|].
  eexists _, _. split; [vm_compute; reflexivity|].
  split; [vm_compute; reflexivity|].
  split; [vm_compute; reflexivity|].
  repeat split; vm_compute; reflexivity.
Qed.

(** C8, amended. For a directory [DATADIR] whose name is plain (it has
    no regex metacharacter other than the dot) and for every sample name
    [s] of the workflow, the path [Clair.dir/s/full_alignment.vcf.gz]
    that [run_clair3] writes is not matched by the pattern of
    [filter_variants], which asks for one more component,
    [/pileup.vcf.gz]; so [filter_variants] has no job, whatever files
    the input directory holds.  The sample names are those of the
    workflow: group 1 of the pattern of [run_clair3] in the outputs of
    [run_mapping], for the files [glob] finds in [DATADIR]. *)
Theorem filter_variants_has_no_job (DATADIR : string) (names : list text) :
  plain DATADIR = true ->
  Forall (fun name => count "/" name = 0) names ->
  exists mapped called,
    run_mapping DATADIR names = Some mapped /\
    run_clair3 mapped = Some called /\
    (forall s, In s (sample_names mapped) ->
       matched filter_variants_regex
         (of_string "Clair.dir/" ++ s ++ of_string "/full_alignment.vcf.gz")
       = false) /\
    (forall j, In j called ->
       matched filter_variants_regex (j_output j) = false) /\
    filter_variants called = Some [].
Proof.
  intros Hplain Hnames. rewrite List.Forall_forall in Hnames.
  (* run_mapping: one separator in every output *)
  destruct (transform_tight (input_files DATADIR names)
              (run_mapping_regex DATADIR) "mapped.dir/\1_sorted.bam"
              _ _ (compile_run_mapping DATADIR Hplain) eq_refl)
    as (mapped & Hmapped & Hm1); cbn [p_re].
  { apply groups_free_mapping_re. }
  { rewrite lits_mapping_re by exact Hplain. lia. }
  { intros i Hi. apply in_input_files in Hi as (n & Hn & Hi).
    rewrite lits_mapping_re by exact Hplain.
    rewrite (Hnames n Hn) in Hi. lia. }
  (* run_clair3: two separators in every output *)
  destruct (compile run_clair3_regex) as [p2|] eqn:Hp2;
    [|vm_compute in Hp2; discriminate].
  assert (Hl2 : lits "/" (p_re p2) = 1 /\ groups_free "/" (p_re p2)).
  { vm_compute in Hp2. injection Hp2 as <-. simpl. repeat split. }
  destruct Hl2 as [Hl2 Hfree2].
  destruct (transform_tight (outputs mapped) run_clair3_regex
              "Clair.dir/\1/full_alignment.vcf.gz" p2 _ Hp2 eq_refl)
    as (called & Hcalled & Hc2); auto; try lia.
  { intros o Ho. apply in_outputs in Ho as (j & Hj & ->).
    rewrite Hl2, (Hm1 j Hj). reflexivity. }
  (* filter_variants: three literal separators in the pattern *)
  destruct (compile filter_variants_regex) as [p3|] eqn:Hp3;
    [|vm_compute in Hp3; discriminate].
  assert (Hl3 : lits "/" (p_re p3) = 3).
  { vm_compute in Hp3. injection Hp3 as <-. reflexivity. }
  exists mapped, called. split; [exact Hmapped|]. split; [exact Hcalled|].
  split; [|split].
  - intros s Hs. unfold sample_names in Hs. apply in_flat_map in Hs.
    destruct Hs as (o & Ho & Hs).
    unfold capture in Hs. rewrite Hp2 in Hs.
    destruct (search_from (p_re p2) o false) as [f|] eqn:Hf; [|destruct Hs].
    destruct (group (f_caps f) 1) as [c|] eqn:Hg; [|destruct Hs].
    destruct Hs as [<-|[]].
    apply in_outputs in Ho as (j & Hj & ->).
    eapply (search_from_tight "/") in Hf as (_ & _ & Hcaps); eauto;
      [|rewrite Hl2, (Hm1 j Hj); reflexivity].
    unfold matched. rewrite Hp3, (search_from_few "/"); [reflexivity|].
    rewrite Hl3, !count_app, (Hcaps 1 c Hg). vm_compute. lia.
  - intros j Hj. unfold matched.
    rewrite Hp3, (search_from_few "/"); [reflexivity|].
    rewrite Hl3, (Hc2 j Hj). vm_compute. lia.
  - unfold filter_variants.
    eapply (transform_few _ _ _ p3); [exact Hp3|reflexivity|].
    intros o Ho. apply in_outputs in Ho as (j & Hj & ->).
    rewrite Hl3, (Hc2 j Hj). vm_compute. lia.
Qed.

Lemma filter_variants_has_no_job_witness :
  exists mapped called,
    run_mapping "data.dir"
      [of_string "s1.fastq.gz"; of_string "s2.fastq.gz"] = Some mapped /\
    run_clair3 mapped = Some called /\
    (forall s, In s (sample_names mapped) ->
       matched filter_variants_regex
         (of_string "Clair.dir/" ++ s ++ of_string "/full_alignment.vcf.gz")
       = false) /\
    (forall j, In j called ->
       matched filter_variants_regex (j_output j) = false) /\
    filter_variants called = Some [].
Proof.
  apply (filter_variants_has_no_job "data.dir"
           [of_string "s1.fastq.gz"; of_string "s2.fastq.gz"]).
  - reflexivity.
  - repeat constructor.
Defined.

(** The restriction to sample names matters: a text with separators of
    its own, which is the name of no sample, can complete the pattern. *)
Example filter_variants_regex_needs_a_name :
  matched filter_variants_regex
    (of_string "Clair.dir/" ++
     of_string "x/full_alignment.vcf.gz/pileup.vcf.gz" ++
     of_string "/full_alignment.vcf.gz")
  = true.
Proof. vm_compute. reflexivity. Qed.

(** C9, as stated, fails: [x.fastq.gz.fastq.1.gz] is a name that the
    glob [*.fastq.1.gz] lists and [*.fastq.gz] does not, the pattern of
    [run_mapping] matches its path (at [./x.fastq.gz]), and a mapping job
    is created for it although the path does not end in [.fastq.gz]. *)
Lemma fastq_1_gz_job_created :
  input_files "." [of_string "x.fastq.gz.fastq.1.gz"]
  = [of_string "./x.fastq.gz.fastq.1.gz"] /\
  ends_with (of_string ".fastq.1.gz") (of_string "./x.fastq.gz.fastq.1.gz")
  = true /\
  ends_with (of_string ".fastq.gz") (of_string "./x.fastq.gz.fastq.1.gz")
  = false /\
  matched (run_mapping_regex ".") (of_string "./x.fastq.gz.fastq.1.gz")
  = true /\
  run_mapping "." [of_string "x.fastq.gz.fastq.1.gz"]
  = Some [{| j_inputs := [of_string "./x.fastq.gz.fastq.1.gz"];
             j_output := of_string "mapped.dir/x_sorted.bam.fastq.1.gz" |}].
Proof. vm_compute. repeat split. Qed.

(** The usual file of the second glob has no match and gets no job. *)
Example fastq_1_gz_usually_has_no_job :
  input_files "data.dir" [of_string "s1.fastq.1.gz"]
  = [of_string "data.dir/s1.fastq.1.gz"] /\
  run_mapping "data.dir" [of_string "s1.fastq.1.gz"] = Some [].
Proof. vm_compute. split; reflexivity. Qed.

(** C9, amended. The suffix [.fastq.1.gz] is never part of a match of
    the pattern of [run_mapping]: a path [P.fastq.1.gz] is matched
    exactly when [P] is, and it gets a mapping job exactly then (none
    otherwise); and the input of every mapping job has a match of
    [.fastq.gz], any character standing for each dot, somewhere in it,
    not necessarily at its end. *)
Theorem fastq_1_gz_suffix_not_matched (DATADIR : string) (path : text) :
  plain DATADIR = true ->
  let file := path ++ of_string ".fastq.1.gz" in
  matched (run_mapping_regex DATADIR) file
  = matched (run_mapping_regex DATADIR) path /\
  (matched (run_mapping_regex DATADIR) path = false ->
   run_mapping_on DATADIR [file] = Some []) /\
  (matched (run_mapping_regex DATADIR) path = true ->
   exists out,
     run_mapping_on DATADIR [file]
     = Some [{| j_inputs := [file]; j_output := out |}]) /\
  (forall files jobs j,
     run_mapping_on DATADIR files = Some jobs -> In j jobs ->
     exists i pre c1 c2 rest,
       In i files /\ j_inputs j = [i] /\
       i = pre ++ [c1; "f"; "a"; "s"; "t"; "q"; c2; "g"; "z"]%char ++ rest).
Proof.
  intros Hplain file.
  pose proof (compile_run_mapping DATADIR Hplain) as Hp.
  set (p := {| p_re := mapping_re (of_string DATADIR); p_groups := 1 |})
    in Hp.
  assert (Heq : matched (run_mapping_regex DATADIR) file
                = matched (run_mapping_regex DATADIR) path).
  { unfold matched. rewrite Hp. cbn [p_re p].
    destruct (search_from _ file false) as [f|] eqn:Hfile;
      destruct (search_from _ path false) as [g|] eqn:Hpath; auto;
      exfalso.
    - apply search_from_sound in Hfile as [Hsplit Hm].
      destruct (matches_fastq_gz_tail _ _ _ _ Hm) as (w0 & c1 & c2 & Hw & _).
      rewrite Hw in Hsplit. unfold file in Hsplit.
      destruct (fastq_1_gz_untouched _ _ _ _ _ _ Hsplit) as [rest' Hrest].
      rewrite Hrest, <- Hw, !app_assoc in Hsplit.
      apply app_inv_tail in Hsplit. rewrite <- app_assoc in Hsplit.
      apply search_from_None in Hpath. apply Hpath.
      do 5 eexists. split; [exact Hsplit|exact Hm].
    - apply search_from_sound in Hpath as [Hsplit Hm].
      apply search_from_None in Hfile. apply Hfile.
      exists (f_pre g), (f_word g), (f_rest g ++ of_string ".fastq.1.gz").
      do 2 eexists. split; [|exact Hm].
      unfold file. rewrite Hsplit, <- !app_assoc. reflexivity. }
  destruct (parse_template (of_string "mapped.dir/\1_sorted.bam"))
    as [t|] eqn:Ht; [|vm_compute in Ht; discriminate].
  assert (Hrefs : refs_ok t (p_groups p) = true)
    by (vm_compute in Ht; injection Ht as <-; reflexivity).
  assert (Hjob : run_mapping_on DATADIR [file]
                 = Some (transform_job p t file)).
  { unfold run_mapping_on. rewrite (transform_eq _ _ _ _ _ Hp Ht). simpl.
    now rewrite app_nil_r. }
  split; [exact Heq|]. split; [|split].
  - intros Hno. rewrite <- Heq in Hno. rewrite Hjob. f_equal.
    apply transform_job_None. unfold matched in Hno. rewrite Hp in Hno.
    now destruct (search_from (p_re p) file false).
  - intros Hyes. rewrite <- Heq in Hyes. rewrite Hjob.
    destruct (transform_job_Some p t file) as [out ->]; [exact Hrefs| |eauto].
    unfold matched in Hyes. rewrite Hp in Hyes.
    now destruct (search_from (p_re p) file false).
  - intros files jobs j Hjobs Hj. unfold run_mapping_on in Hjobs.
    rewrite (transform_eq _ _ _ _ _ Hp Ht) in Hjobs.
    injection Hjobs as <-.
    apply in_transform in Hj as (i & k & Hi & Hs & Hin).
    destruct (search_from (p_re p) i false) as [f|] eqn:Hf.
    + apply search_from_sound in Hf as [Hsplit Hm].
      destruct (matches_fastq_gz_tail _ _ _ _ Hm) as (w0 & c1 & c2 & Hw & _).
      exists i, (f_pre f ++ w0), c1, c2, (f_rest f).
      repeat split; auto. rewrite Hsplit at 1. rewrite Hw, <- !app_assoc.
      reflexivity.
    + exfalso. unfold subn in Hs.
      replace (2 * length i + 2) with (S (2 * length i + 1)) in Hs by lia.
      cbn [subn_loop] in Hs. rewrite Hf in Hs. discriminate.
Qed.

Lemma fastq_1_gz_suffix_not_matched_witness :
  let file := of_string "data.dir/s1" ++ of_string ".fastq.1.gz" in
  matched (run_mapping_regex "data.dir") file
  = matched (run_mapping_regex "data.dir") (of_string "data.dir/s1") /\
  (matched (run_mapping_regex "data.dir") (of_string "data.dir/s1") = false ->
   run_mapping_on "data.dir" [file] = Some []) /\
  (matched (run_mapping_regex "data.dir") (of_string "data.dir/s1") = true ->
   exists out,
     run_mapping_on "data.dir" [file]
     = Some [{| j_inputs := [file]; j_output := out |}]) /\
  (forall files jobs j,
     run_mapping_on "data.dir" files = Some jobs -> In j jobs ->
     exists i pre c1 c2 rest,
       In i files /\ j_inputs j = [i] /\
       i = pre ++ [c1; "f"; "a"; "s"; "t"; "q"; c2; "g"; "z"]%char ++ rest).
Proof.
  apply (fastq_1_gz_suffix_not_matched "data.dir" (of_string "data.dir/s1")).
  reflexivity.
Defined.

(** C10, as stated, fails.  [PARAMS] is cgatcore's [defaultdict]: when
    the module is imported, the subscript of the missing key ['data']
    raises nothing, it gives the empty string, and [DATADIR] is [""];
    the block ends and the module is loaded.  And [DATADIR] is ["."]
    also for a value that does not equal 0, the string ["."] itself. *)
Lemma DATADIR_without_the_key :
  Config.DATADIR true ∅
  = Config.Ok (Config.VStr "", {[ "data" := Config.VStr "" ]}) /\
  Config.eq_int (Config.VStr ".") 0 = false /\
  Config.DATADIR false {[ "data" := Config.VStr "." ]}
  = Config.Ok (Config.VStr ".", {[ "data" := Config.VStr "." ]}).
Proof. repeat split. Qed.

(** C10, amended. Without the key ['data'] in [PARAMS], evaluating the
    [DATADIR] block raises [KeyError] when the module is run as the main
    program: the exception is the one of cgatcore's default factory, the
    [except NameError] handler does not catch it and the default ["."]
    is not taken; when the module is only imported the missing key is
    given the empty string and [DATADIR] is [""].  With the key,
    [DATADIR] is ["."] when [PARAMS['data'] == 0], ["data.dir"] when
    [PARAMS['data'] == 1], and [PARAMS['data']] itself otherwise, and
    [PARAMS] is left as it was.  So [DATADIR] is ["."] exactly when the
    key exists and its value equals 0 or is the string ["."]; and the
    block raises nothing but that [KeyError]. *)
Theorem DATADIR_block (only_import : bool)
    (PARAMS : gmap string Config.pyval) :
  (PARAMS !! "data" = None ->
   Config.DATADIR only_import PARAMS
   = if only_import
     then Config.Ok (Config.VStr "", <["data" := Config.VStr ""]> PARAMS)
     else Config.Raise (Config.KeyError "missing parameter accessed")) /\
  (forall v, PARAMS !! "data" = Some v ->
   Config.DATADIR only_import PARAMS
   = Config.Ok (if Config.eq_int v 0 then Config.VStr "."
                else if Config.eq_int v 1 then Config.VStr "data.dir"
                else v,
                PARAMS)) /\
  ((exists PARAMS', Config.DATADIR only_import PARAMS
                    = Config.Ok (Config.VStr ".", PARAMS')) <->
   exists v, PARAMS !! "data" = Some v /\
             (Config.eq_int v 0 = true \/ v = Config.VStr ".")) /\
  (forall e, Config.DATADIR only_import PARAMS = Config.Raise e <->
     PARAMS !! "data" = None /\ only_import = false /\
     e = Config.KeyError "missing parameter accessed").
Proof.
  assert (Hnone : PARAMS !! "data" = None ->
    Config.DATADIR only_import PARAMS
    = if only_import
      then Config.Ok (Config.VStr "", <["data" := Config.VStr ""]> PARAMS)
      else Config.Raise (Config.KeyError "missing parameter accessed")).
  { intros H. unfold Config.DATADIR, Config.getitem, Config.try_except_else.
    rewrite H. destruct only_import; [|reflexivity].
    cbn. repeat (rewrite lookup_insert_eq; cbn). reflexivity. }
  assert (Hsome : forall v, PARAMS !! "data" = Some v ->
    Config.DATADIR only_import PARAMS
    = Config.Ok (if Config.eq_int v 0 then Config.VStr "."
                 else if Config.eq_int v 1 then Config.VStr "data.dir"
                 else v,
                 PARAMS)).
  { intros v H. unfold Config.DATADIR, Config.getitem, Config.try_except_else.
    rewrite H. cbn. rewrite H. cbn.
    destruct (Config.eq_int v 0); [reflexivity|].
    rewrite H. cbn. destruct (Config.eq_int v 1); [reflexivity|].
    now rewrite H. }
  split; [exact Hnone|]. split; [exact Hsome|].
  destruct (PARAMS !! "data") as [v|] eqn:Hv.
  - rewrite (Hsome v eq_refl). split.
    + split.
      * intros [P' H]. exists v. split; [reflexivity|].
        destruct (Config.eq_int v 0); [now left|].
        destruct (Config.eq_int v 1); [discriminate|].
        right. now injection H.
      * intros (w & [= <-] & [H| ->]).
        -- rewrite H. eauto.
        -- cbn. eauto.
    + intros e. split; [discriminate|]. now intros [? _].
  - rewrite (Hnone eq_refl). split.
    + split.
      * destruct only_import; intros [P' H]; discriminate.
      * now intros (w & ? & _).
    + intros e. destruct only_import; split; try discriminate.
      * now intros (_ & ? & _).
      * intros [= <-]. auto.
      * now intros (_ & _ & ->).
Qed.

Lemma DATADIR_block_witness :
  Config.DATADIR false ∅
  = Config.Raise (Config.KeyError "missing parameter accessed") /\
  Config.DATADIR false {[ "data" := Config.VInt 0 ]}
  = Config.Ok (Config.VStr ".", {[ "data" := Config.VInt 0 ]}) /\
  Config.DATADIR true
    {[ "data" := Config.VFloat (S754_finite false 4503599627370496 (-52)) ]}
  = Config.Ok (Config.VStr "data.dir",
               {[ "data" := Config.VFloat
                              (S754_finite false 4503599627370496 (-52)) ]}) /\
  Config.DATADIR true {[ "data" := Config.VStr "fastq" ]}
  = Config.Ok (Config.VStr "fastq", {[ "data" := Config.VStr "fastq" ]}).
Proof.
  split; [|split; [|split]].
  - apply (proj1 (DATADIR_block false ∅)). reflexivity.
  - apply (proj1 (proj2 (DATADIR_block false {[ "data" := Config.VInt 0 ]}))
             (Config.VInt 0)).
    reflexivity.
  - apply (proj1 (proj2 (DATADIR_block true
                           {[ "data" := Config.VFloat
                                (S754_finite false 4503599627370496 (-52)) ]}))
             (Config.VFloat (S754_finite false 4503599627370496 (-52)))).
    reflexivity.
  - apply (proj1 (proj2 (DATADIR_block true
                           {[ "data" := Config.VStr "fastq" ]}))
             (Config.VStr "fastq")).
    reflexivity.
Defined.

(** * Further properties of the task declarations *)

(** X1. For a plain [DATADIR], the file [DATADIR/<name>.fastq.gz] of a
    sample whose name has no whitespace gets one [run_mapping] job, and
    its output is [mapped.dir/<name>_sorted.bam]. *)
Theorem run_mapping_names_the_bam (DATADIR : string) (name : text) :
  plain DATADIR = true -> name <> [] -> nonspace name ->
  let fastq := of_string DATADIR ++ of_string "/" ++ name
               ++ of_string ".fastq.gz" in
  run_mapping_on DATADIR [fastq]
  = Some [{| j_inputs := [fastq];
             j_output := of_string "mapped.dir/" ++ name
                         ++ of_string "_sorted.bam" |}].
Proof.
  intros Hplain Hne Hname fastq. unfold run_mapping_on, fastq.
  rewrite (app_assoc (of_string DATADIR)).
  eapply transform_one; [|reflexivity|reflexivity|exact Hne|exact Hname].
  rewrite compile_run_mapping by exact Hplain. now rewrite mapping_re_shape.
Qed.

Lemma run_mapping_names_the_bam_witness :
  run_mapping_on "data.dir" [of_string "data.dir/s1.fastq.gz"]
  = Some [{| j_inputs := [of_string "data.dir/s1.fastq.gz"];
             j_output := of_string "mapped.dir/s1_sorted.bam" |}].
Proof.
  apply (run_mapping_names_the_bam "data.dir" (of_string "s1")).
  - reflexivity.
  - discriminate.
  - repeat constructor.
Defined.

(** X2. From the mapped file [mapped.dir/<name>_sorted.bam] of a sample,
    every downstream [@transform] creates one job, and the outputs are
    named after the sample: the Clair3 calls, the Sniffles calls and
    their filtered copy, the coverage summary and the coverage track. *)
Theorem downstream_names (name : text) :
  name <> [] -> nonspace name ->
  let bam := {| j_inputs := [];
                j_output := of_string "mapped.dir/" ++ name
                            ++ of_string "_sorted.bam" |} in
  let snf := {| j_inputs := [j_output bam];
                j_output := of_string "Sniffles.dir/" ++ name
                            ++ of_string "/output.snf" |} in
  run_clair3 [bam]
  = Some [{| j_inputs := [j_output bam];
             j_output := of_string "Clair.dir/" ++ name
                         ++ of_string "/full_alignment.vcf.gz" |}] /\
  run_sniffles [bam] = Some [snf] /\
  merge_sniffles_variants [snf]
  = Some [{| j_inputs := [j_output snf];
             j_output := of_string "filtered_vcf.dir/" ++ name
                         ++ of_string "_sniffles_Qual30_output.vcf.gz" |}] /\
  mosdepth [bam]
  = Some [{| j_inputs := [j_output bam];
             j_output := of_string "coverage.dir/" ++ name
                         ++ of_string ".mosdepth.summary.txt" |}] /\
  run_bamcoverage [bam]
  = Some [{| j_inputs := [j_output bam];
             j_output := of_string "mapped.dir/" ++ name
                         ++ of_string ".bw" |}].
Proof.
  intros Hne Hname bam snf.
  repeat split;
    (eapply (transform_one _ _ (of_string _) (of_string _)); eauto;
     reflexivity).
Qed.

Lemma downstream_names_witness :
  run_clair3 [{| j_inputs := [];
                 j_output := of_string "mapped.dir/s1_sorted.bam" |}]
  = Some [{| j_inputs := [of_string "mapped.dir/s1_sorted.bam"];
             j_output := of_string "Clair.dir/s1/full_alignment.vcf.gz" |}].
Proof.
  apply (downstream_names (of_string "s1")).
  - discriminate.
  - repeat constructor.
Defined.

(** * The bodies of the tasks *)

Import Body BodyFacts.

(** X3. The intermediate files of [run_mapping].  For a sample whose
    name has neither [_sorted.bam] nor [.sam] in it, the SAM file that
    minimap2 writes is [mapped.dir/<name>.sam] and the unsorted BAM file
    is [mapped.dir/<name>.bam]; the two and the sorted output are three
    different files. *)
Theorem run_mapping_intermediate_files (infile name : text) :
  occurs (of_string "_sorted.bam") name = false ->
  occurs (of_string ".sam") name = false ->
  let outfile := of_string "mapped.dir/" ++ name ++ of_string "_sorted.bam" in
  let body := run_mapping_body infile outfile in
  tmp body = of_string "mapped.dir/" ++ name ++ of_string ".sam" /\
  bamfile body = of_string "mapped.dir/" ++ name ++ of_string ".bam" /\
  tmp body <> bamfile body /\ bamfile body <> outfile /\ tmp body <> outfile.
Proof.
  intros Hbam Hsam outfile body. unfold body, outfile.
  rewrite run_mapping_body_eq by assumption. cbn [tmp bamfile].
  repeat split; try reflexivity;
    intros H; apply app_inv_head in H; apply app_inv_head in H;
    discriminate.
Qed.

Lemma run_mapping_intermediate_files_witness :
  tmp (run_mapping_body (of_string "./s1.fastq.gz")
         (of_string "mapped.dir/s1_sorted.bam"))
  = of_string "mapped.dir/s1.sam".
Proof.
  apply (run_mapping_intermediate_files (of_string "./s1.fastq.gz")
           (of_string "s1")); reflexivity.
Defined.

(** [replace] rewrites every occurrence, also those inside the name of
    the sample: the samples [a.sam] and [a.bam] have different outputs
    and the same unsorted BAM file. *)
Example bamfile_shared_by_two_samples :
  let body1 := run_mapping_body (of_string "./a.sam.fastq.gz")
                 (of_string "mapped.dir/a.sam_sorted.bam") in
  let body2 := run_mapping_body (of_string "./a.bam.fastq.gz")
                 (of_string "mapped.dir/a.bam_sorted.bam") in
  bamfile body1 = of_string "mapped.dir/a.bam.bam" /\
  bamfile body2 = of_string "mapped.dir/a.bam.bam".
Proof. split; reflexivity. Qed.

(** X4. The unsorted BAM file of one sample and the output of
    another.  For a sample name without [_sorted.bam] and [.sam], the
    unsorted BAM file of the sample is the output of the sample [other]
    exactly when the name is [other] followed by [_sorted]; the SAM file
    is the output of no sample. *)
Theorem unsorted_bam_of_another_sample (infile name other : text) :
  occurs (of_string "_sorted.bam") name = false ->
  occurs (of_string ".sam") name = false ->
  let output sample :=
    of_string "mapped.dir/" ++ sample ++ of_string "_sorted.bam" in
  let body := run_mapping_body infile (output name) in
  (bamfile body = output other <-> name = other ++ of_string "_sorted") /\
  tmp body <> output other.
Proof.
  intros Hbam Hsam output body. unfold body, output.
  rewrite run_mapping_body_eq by assumption. cbn [tmp bamfile]. split.
  - change (of_string "_sorted.bam")
      with (of_string "_sorted" ++ of_string ".bam").
    rewrite (app_assoc other). split.
    + intros H. apply app_inv_head in H. now apply app_inv_tail in H.
    + now intros ->.
  - intros H. apply app_inv_head in H. apply (f_equal (@rev ascii)) in H.
    rewrite !rev_app_distr in H. simpl in H. discriminate.
Qed.

Lemma unsorted_bam_of_another_sample_witness :
  bamfile (run_mapping_body (of_string "./a_sorted.fastq.gz")
             (of_string "mapped.dir/a_sorted_sorted.bam"))
  = of_string "mapped.dir/a_sorted.bam".
Proof.
  apply (proj1 (unsorted_bam_of_another_sample
                  (of_string "./a_sorted.fastq.gz") (of_string "a_sorted")
                  (of_string "a") eq_refl eq_refl)).
  reflexivity.
Defined.

(** X5. The [--output] option of Clair3.  For a sample name without a
    separator, removing [/tmp.txt] from the output path changes nothing
    unless the name starts with [tmp.txt], so that Clair3 is given the
    path of the output file itself, [full_alignment.vcf.gz] included;
    for a name that starts with [tmp.txt] that part of the name and the
    separator before it are lost.  The same holds of the [outfile_path]
    of [run_sniffles]. *)
Theorem run_clair3_output_option (infile name : text) :
  count "/" name = 0 ->
  let outfile := of_string "Clair.dir/" ++ name
                 ++ of_string "/full_alignment.vcf.gz" in
  let snf := of_string "Sniffles.dir/" ++ name ++ of_string "/output.snf" in
  (is_prefix (of_string "tmp.txt") name = false ->
   run_clair3_outfile_path infile outfile = outfile /\
   outfile_path (run_sniffles_body infile snf) = snf) /\
  (forall rest, name = of_string "tmp.txt" ++ rest ->
   run_clair3_outfile_path infile outfile
   = of_string "Clair.dir" ++ rest ++ of_string "/full_alignment.vcf.gz" /\
   outfile_path (run_sniffles_body infile snf)
   = of_string "Sniffles.dir" ++ rest ++ of_string "/output.snf").
Proof.
  intros Hname outfile snf.
  unfold run_clair3_outfile_path, run_sniffles_body, outfile, snf.
  cbn [outfile_path].
  split.
  - intros Hp. split.
    + apply (no_tmp_txt (of_string "Clair.dir") name
               (of_string "full_alignment.vcf.gz")); auto.
      apply count_0_not_In. reflexivity.
    + apply (no_tmp_txt (of_string "Sniffles.dir") name
               (of_string "output.snf")); auto.
      apply count_0_not_In. reflexivity.
  - intros rest ->. rewrite count_app in Hname. rewrite <- !app_assoc.
    split.
    + apply (tmp_txt_removed (of_string "Clair.dir") rest
               (of_string "full_alignment.vcf.gz")); try reflexivity; try lia.
      apply count_0_not_In. reflexivity.
    + apply (tmp_txt_removed (of_string "Sniffles.dir") rest
               (of_string "output.snf")); try reflexivity; try lia.
      apply count_0_not_In. reflexivity.
Qed.

Lemma run_clair3_output_option_witness :
  run_clair3_outfile_path (of_string "mapped.dir/s1_sorted.bam")
    (of_string "Clair.dir/s1/full_alignment.vcf.gz")
  = of_string "Clair.dir/s1/full_alignment.vcf.gz".
Proof.
  apply (proj1 (run_clair3_output_option (of_string "mapped.dir/s1_sorted.bam")
                  (of_string "s1") eq_refl)).
  reflexivity.
Defined.

(** X6. The files of Sniffles.  For a sample whose name has no [.snf]
    in it, [run_sniffles] has the calls written to
    [Sniffles.dir/<name>/output.vcf], beside the [.snf] file that is its
    output, and the messages to [Sniffles.dir/<name>/output.snf.log];
    and [merge_sniffles_variants], whose input is that [.snf] file,
    hands the same [.vcf] file to bcftools. *)
Theorem sniffles_vcf_is_the_file_filtered (name : text) :
  occurs (of_string ".snf") name = false ->
  let outfile := of_string "Sniffles.dir/" ++ name
                 ++ of_string "/output.snf" in
  forall (bam filtered : text),
    let body := run_sniffles_body bam outfile in
    vcf_file body
    = of_string "Sniffles.dir/" ++ name ++ of_string "/output.vcf" /\
    log body
    = of_string "Sniffles.dir/" ++ name ++ of_string "/output.snf.log" /\
    merge_sniffles_variants_infile outfile filtered = vcf_file body.
Proof.
  intros Hname outfile bam filtered body.
  unfold body, run_sniffles_body, merge_sniffles_variants_infile.
  cbn [vcf_file log]. split; [|split; [|reflexivity]].
  - unfold outfile.
    change (of_string "/output.snf")
      with (of_string "/output" ++ of_string ".snf").
    change (of_string "/output.vcf")
      with (of_string "/output" ++ of_string ".vcf").
    rewrite !app_assoc. apply str_replace_suffix;
      [discriminate|reflexivity|].
    rewrite <- app_assoc.
    change (occurs (of_string ".snf") (name ++ of_string "/output") = false).
    rewrite occurs_free; [reflexivity|].
    apply free_before; [|exact Hname].
    apply count_0_not_In. reflexivity.
  - unfold outfile. now rewrite <- !app_assoc.
Qed.

Lemma sniffles_vcf_is_the_file_filtered_witness :
  merge_sniffles_variants_infile (of_string "Sniffles.dir/s1/output.snf")
    (of_string "filtered_vcf.dir/s1_sniffles_Qual30_output.vcf.gz")
  = vcf_file (run_sniffles_body (of_string "mapped.dir/s1_sorted.bam")
                (of_string "Sniffles.dir/s1/output.snf")).
Proof.
  apply (sniffles_vcf_is_the_file_filtered (of_string "s1") eq_refl).
Defined.

(** X7. The prefix given to mosdepth.  mosdepth writes its summary to
    the prefix followed by [.mosdepth.summary.txt].  That file is the
    declared output of the task exactly when the name of the sample has
    no [.mosdepth.summary.txt] in it, and the prefix is then
    [coverage.dir/<name>]. *)
Theorem mosdepth_writes_its_output (infile name : text) :
  let marker := of_string ".mosdepth.summary.txt" in
  let outfile := of_string "coverage.dir/" ++ name ++ marker in
  (mosdepth_name infile outfile ++ marker = outfile
   <-> occurs marker name = false) /\
  (occurs marker name = false ->
   mosdepth_name infile outfile = of_string "coverage.dir/" ++ name).
Proof.
  intros marker outfile.
  assert (Hno : occurs marker name = false ->
                mosdepth_name infile outfile
                = of_string "coverage.dir/" ++ name).
  { intros H. unfold mosdepth_name, outfile.
    change (of_string "") with (@nil ascii).
    rewrite app_assoc, str_replace_suffix, app_nil_r;
      [reflexivity|discriminate|reflexivity|exact H]. }
  split; [split|exact Hno].
  - intros Heq. destruct (occurs marker name) eqn:Ho; [exfalso|reflexivity].
    unfold outfile in Heq. rewrite app_assoc in Heq.
    apply app_inv_tail in Heq.
    pose proof (length_str_replace_twice
                  (of_string "coverage.dir/" ++ name) marker) as Hlen.
    unfold mosdepth_name, outfile in Heq.
    change (of_string "") with (@nil ascii) in Heq.
    specialize (Hlen ltac:(discriminate) Ho). unfold marker in Hlen, Heq.
    rewrite Heq in Hlen. lia.
  - intros H. now rewrite (Hno H).
Qed.

Lemma mosdepth_writes_its_output_witness :
  mosdepth_name (of_string "mapped.dir/s1_sorted.bam")
    (of_string "coverage.dir/s1.mosdepth.summary.txt")
  = of_string "coverage.dir/s1".
Proof.
  apply (proj2 (mosdepth_writes_its_output
                  (of_string "mapped.dir/s1_sorted.bam") (of_string "s1"))).
  reflexivity.
Defined.

(** X8. The arguments of [sniffles --input].  [merge_sniffles] joins
    its inputs with spaces.  When there is an input and no input has a
    space in it, splitting the joined string at the spaces gives the
    inputs back, each as one word and in their order. *)
Theorem merge_sniffles_one_word_per_input (infiles : list text)
    (outfile : text) :
  infiles <> [] -> Forall (fun f => count " " f = 0) infiles ->
  str_split " " (merge_sniffles_infiles infiles outfile) = infiles.
Proof.
  intros Hne Hl. unfold merge_sniffles_infiles.
  now apply (str_split_join " "%char).
Qed.

Lemma merge_sniffles_one_word_per_input_witness :
  str_split " "
    (merge_sniffles_infiles
       [of_string "Sniffles.dir/a/output.snf";
        of_string "Sniffles.dir/b/output.snf"]
       (of_string "Sniffles.dir/merged.vcf.gz"))
  = [of_string "Sniffles.dir/a/output.snf";
     of_string "Sniffles.dir/b/output.snf"].
Proof.
  apply merge_sniffles_one_word_per_input.
  - discriminate.
  - repeat constructor.
Defined.

(** * The jobs of the whole workflow *)

Import Workflow WorkflowFacts.

(** X9. One mapping job per sample.  Let [DATADIR] be a directory name
    without regex metacharacters other than the dot, not empty and not
    ending with a separator, and let the directory be tidy.  Then
    [run_mapping] has exactly one job for every name that [*.fastq.gz]
    lists: its jobs are, in some order, the jobs with input
    [DATADIR/<sample>.fastq.gz] and output
    [mapped.dir/<sample>_sorted.bam], one for each sample, the sample
    being the name without [.fastq.gz].  The samples do not depend on
    the order in which the directory lists its names. *)
Theorem run_mapping_one_job_per_sample (DATADIR : string)
    (names : list text) :
  plain DATADIR = true -> joinable DATADIR = true -> tidy names = true ->
  (exists mapped,
     run_mapping DATADIR names = Some mapped /\
     Permutation mapped
       (map (fun sample =>
               {| j_inputs := [of_string DATADIR ++ of_string "/" ++ sample
                               ++ of_string ".fastq.gz"];
                  j_output := of_string "mapped.dir/" ++ sample
                              ++ of_string "_sorted.bam" |})
            (samples names))) /\
  Forall (fun sample => sample <> [] /\ nonspace sample /\
                        In (sample ++ of_string ".fastq.gz") names)
         (samples names) /\
  (forall listing, Permutation listing names ->
     tidy listing = true /\ Permutation (samples listing) (samples names)).
Proof.
  intros Hplain HD Ht. split; [|split].
  - eexists. split; [now apply run_mapping_tidy|reflexivity].
  - apply List.Forall_forall. intros n Hn.
    destruct (In_samples names n Ht Hn) as (Hne & Hsp & _).
    repeat split; auto. unfold samples in Hn.
    apply in_map_iff in Hn as (f & <- & Hf).
    destruct (In_fastq_gz names f Ht Hf) as (<- & _).
    unfold fastq_gz in Hf. now apply filter_In in Hf as [Hf _].
  - intros listing Hp. split.
    + now rewrite (tidy_Permutation _ _ Hp).
    + now apply samples_Permutation.
Qed.

Lemma run_mapping_one_job_per_sample_witness :
  exists mapped,
    run_mapping "."
      [of_string "s2.fastq.gz"; of_string "pipeline.yml";
       of_string "s1.fastq.gz"]
    = Some mapped /\
    Permutation mapped
      [{| j_inputs := [of_string "./s2.fastq.gz"];
          j_output := of_string "mapped.dir/s2_sorted.bam" |};
       {| j_inputs := [of_string "./s1.fastq.gz"];
          j_output := of_string "mapped.dir/s1_sorted.bam" |}].
Proof.
  apply (proj1 (run_mapping_one_job_per_sample "."
                  [of_string "s2.fastq.gz"; of_string "pipeline.yml";
                   of_string "s1.fastq.gz"] eq_refl eq_refl eq_refl)).
Defined.

(** X10. The jobs of the other tasks.  Under the same conditions every
    task that is declared on [run_mapping] has exactly one job per
    sample, named after the sample; [merge_sniffles_variants] has one
    per sample from the [.snf] files; [merge_sniffles] has one job,
    which takes the [.snf] files of all the samples; and
    [filter_variants] has none.  The jobs of a task, and the inputs of
    the job of [merge_sniffles], are given up to their order. *)
Theorem workflow_jobs (DATADIR : string) (names : list text) :
  plain DATADIR = true -> joinable DATADIR = true -> tidy names = true ->
  let bam sample :=
    of_string "mapped.dir/" ++ sample ++ of_string "_sorted.bam" in
  let snf sample :=
    of_string "Sniffles.dir/" ++ sample ++ of_string "/output.snf" in
  let one_per_sample (t : Tasks.task) (input output : text -> text) :=
    exists js,
      jobs DATADIR names t = Some js /\
      Permutation js
        (map (fun sample => {| j_inputs := [input sample];
                               j_output := output sample |})
             (samples names)) in
  one_per_sample Tasks.run_clair3 bam
    (fun sample => of_string "Clair.dir/" ++ sample
                   ++ of_string "/full_alignment.vcf.gz") /\
  jobs DATADIR names Tasks.filter_variants = Some [] /\
  one_per_sample Tasks.run_sniffles bam snf /\
  (exists j,
     jobs DATADIR names Tasks.merge_sniffles = Some [j] /\
     Permutation (j_inputs j) (map snf (samples names)) /\
     j_output j = of_string "Sniffles.dir/merged.vcf.gz") /\
  one_per_sample Tasks.merge_sniffles_variants snf
    (fun sample => of_string "filtered_vcf.dir/" ++ sample
                   ++ of_string "_sniffles_Qual30_output.vcf.gz") /\
  one_per_sample Tasks.mosdepth bam
    (fun sample => of_string "coverage.dir/" ++ sample
                   ++ of_string ".mosdepth.summary.txt") /\
  one_per_sample Tasks.run_bamcoverage bam
    (fun sample => of_string "mapped.dir/" ++ sample ++ of_string ".bw").
Proof.
  intros Hplain HD Ht bam snf one_per_sample.
  pose proof (jobs_tidy DATADIR names) as H.
  specialize (fun t => H t Hplain HD Ht).
  unfold one_per_sample.
  split; [|split; [|split; [|split; [|split; [|split]]]]];
    try (eexists; split; [apply H|reflexivity]).
  - exact (H Tasks.filter_variants).
  - eexists. split; [exact (H Tasks.merge_sniffles)|]. split; reflexivity.
Qed.

Lemma workflow_jobs_witness :
  exists j,
    jobs "data.dir" [of_string "s2.fastq.gz"; of_string "s1.fastq.gz"]
      Tasks.merge_sniffles
    = Some [j] /\
    Permutation (j_inputs j)
      [of_string "Sniffles.dir/s2/output.snf";
       of_string "Sniffles.dir/s1/output.snf"] /\
    j_output j = of_string "Sniffles.dir/merged.vcf.gz".
Proof.
  apply (workflow_jobs "data.dir"
           [of_string "s2.fastq.gz"; of_string "s1.fastq.gz"]
           eq_refl eq_refl eq_refl).
Defined.

(** X11. No input file twice.  The two glob patterns of
    [SEQUENCEFILES] never list the same name, and different names give
    different paths: a directory listing without repetition, of names
    without a separator, gives input files without repetition, for
    every directory name without a wildcard. *)
Theorem input_files_listed_once (DATADIR : string) (names : list text) :
  plain DATADIR = true ->
  List.NoDup names -> Forall (fun f => count "/" f = 0) names ->
  List.NoDup (input_files DATADIR names).
Proof.
  intros _ Hnd Hc. rewrite List.Forall_forall in Hc. rewrite input_files_eq.
  apply List.NoDup_map_NoDup_ForallPairs.
  - intros f1 f2 H1 H2. apply os_path_join_inj; apply no_sep_start, Hc.
    + apply in_app_or in H1 as [H1|H1]; now apply filter_In in H1.
    + apply in_app_or in H2 as [H2|H2]; now apply filter_In in H2.
  - apply List.NoDup_app; try now apply List.NoDup_filter.
    intros f H1 H2. apply filter_In in H1 as [_ H1].
    apply filter_In in H2 as [_ H2].
    rewrite (fastq_gz_not_fastq_1_gz f H1) in H2. discriminate.
Qed.

Lemma input_files_listed_once_witness :
  List.NoDup (input_files "data.dir/"
                [of_string "a.fastq.gz"; of_string "a.fastq.1.gz"]).
Proof.
  apply input_files_listed_once.
  - reflexivity.
  - repeat constructor; simpl; intuition discriminate.
  - repeat constructor.
Defined.

(** X12. Different samples, different outputs.  Under the conditions
    of X9 and for a listing without repetition, the samples are all
    different and no two jobs of a task have the same output. *)
Theorem outputs_are_distinct (DATADIR : string) (names : list text)
    (t : Tasks.task) (js : list job) :
  plain DATADIR = true -> joinable DATADIR = true -> tidy names = true ->
  List.NoDup names -> jobs DATADIR names t = Some js ->
  List.NoDup (samples names) /\ List.NoDup (outputs js).
Proof.
  intros Hplain HD Ht Hnd Hjobs.
  pose proof (samples_NoDup names Ht Hnd) as Hs. split; [exact Hs|].
  rewrite jobs_tidy in Hjobs by auto. injection Hjobs as <-.
  destruct t; cbn [expected]; rewrite ?outputs_one;
    try (now apply between_NoDup); repeat constructor; auto.
Qed.

Lemma outputs_are_distinct_witness :
  List.NoDup
    (outputs [{| j_inputs := [of_string "./s1.fastq.gz"];
                 j_output := of_string "mapped.dir/s1_sorted.bam" |};
              {| j_inputs := [of_string "./s2.fastq.gz"];
                 j_output := of_string "mapped.dir/s2_sorted.bam" |}]).
Proof.
  apply (outputs_are_distinct "."
           [of_string "s1.fastq.gz"; of_string "s2.fastq.gz"]
           Tasks.run_mapping); try reflexivity.
  repeat constructor; simpl; intuition discriminate.
Defined.

(** X13. A [DATADIR] that ends with a separator.  The pattern of
    [run_mapping] puts a separator after [DATADIR], and [os.path.join]
    puts none after a directory name that is empty or ends with one:
    for such a [DATADIR] no listed file matches the pattern, and neither
    [run_mapping] nor any task that makes one job per sample has a job,
    whatever the directory holds. *)
Theorem no_job_for_a_DATADIR_with_a_separator (DATADIR : string)
    (names : list text) :
  plain DATADIR = true -> joinable DATADIR = false ->
  Forall (fun f => count "/" f = 0) names ->
  run_mapping DATADIR names = Some [] /\
  forall t, t <> Tasks.merge_sniffles -> jobs DATADIR names t = Some [].
Proof.
  intros Hplain HD Hc.
  pose proof (run_mapping_not_joinable DATADIR names Hplain HD Hc) as Hm.
  split; [exact Hm|]. intros t Ht. unfold jobs. rewrite Hm.
  destruct t; try reflexivity. contradiction.
Qed.

Lemma no_job_for_a_DATADIR_with_a_separator_witness :
  run_mapping "data.dir/" [of_string "s1.fastq.gz"] = Some [].
Proof.
  apply (no_job_for_a_DATADIR_with_a_separator "data.dir/"
           [of_string "s1.fastq.gz"]); [reflexivity|reflexivity|].
  repeat constructor.
Defined.

(** * The tasks and what they follow *)

Import TasksFacts.

(** X14. What the target [full] brings up to date.  [full] needs every
    task of the module except [merge_sniffles]: [full] does not follow
    it and no task is declared on it, so that only [merge_sniffles]
    itself needs it. *)
Theorem full_needs_all_but_merge_sniffles :
  (forall t, Tasks.needs Tasks.full t <-> t <> Tasks.merge_sniffles) /\
  (forall t, Tasks.needs t Tasks.merge_sniffles -> t = Tasks.merge_sniffles) /\
  (forall t, Tasks.needed Tasks.full t = true <-> t <> Tasks.merge_sniffles).
Proof.
  assert (Hup : forall u v, In v (Tasks.upstream u) ->
                            v <> Tasks.merge_sniffles)
    by (intros [] v; simpl; intuition (subst; discriminate)).
  assert (Hneeds : forall t u, Tasks.needs t u -> u = Tasks.merge_sniffles ->
                               t = Tasks.merge_sniffles).
  { intros t u H. induction H as [|u v _ _ Hv]; [auto|].
    intros ->. now apply Hup in Hv. }
  assert (Hfull : forall t, Tasks.needs Tasks.full t
                            <-> t <> Tasks.merge_sniffles).
  { intros t. split.
    - intros H ->. now apply Hneeds in H.
    - intros Ht. apply needed_spec. destruct t; try reflexivity.
      contradiction. }
  split; [exact Hfull|split].
  - intros t H. now apply (Hneeds t _ H).
  - intros t. now rewrite needed_spec.
Qed.

(** X15. The shape of the declarations.  No task needs a task that
    needs it, other than itself, and none is declared on itself: the
    declarations have no cycle.  Every task needs [run_mapping], the
    only task that takes the input files. *)
Theorem tasks_have_no_cycle :
  (forall t u, Tasks.needs t u -> Tasks.needs u t -> t = u) /\
  (forall t, ~ In t (Tasks.upstream t)) /\
  (forall t, Tasks.needs t Tasks.run_mapping) /\
  (forall t, Tasks.upstream t = [] <-> t = Tasks.run_mapping).
Proof.
  split; [|split; [|split]].
  - intros t u H1 H2. apply needs_rank in H1, H2.
    destruct H1 as [->|H1]; [reflexivity|]. destruct H2 as [->|H2];
      [reflexivity|lia].
  - intros t H. apply upstream_rank in H. lia.
  - intros t. apply needed_spec. now destruct t.
  - intros t. split; [now destruct t|now intros ->].
Qed.

(** Rewrites the directory of a path with an equation about the same
    path written in another way. *)
Ltac rewrite_dirname E :=
  match goal with
  | |- context [os_path_dirname ?p] =>
      match type of E with
      | os_path_dirname ?q = _ => change p with q; rewrite E
      end
  end.

(** X16. The directory of an output.  In a tidy directory, the
    directory that a job of [run_mapping], [mosdepth],
    [run_bamcoverage] or [merge_sniffles] writes its output to is one
    of those made by a [mkdir] of the task or of a task it needs.  For
    a job of [run_clair3], [run_sniffles] or [merge_sniffles_variants]
    it is not: the first two write to a directory named after the
    sample, and [filtered_vcf.dir] is only made for [filter_variants],
    which [merge_sniffles_variants] does not need. *)
Theorem output_directories (DATADIR : string) (names : list text)
    (t : Tasks.task) (js : list job) (j : job) :
  plain DATADIR = true -> joinable DATADIR = true -> tidy names = true ->
  jobs DATADIR names t = Some js -> In j js ->
  let directory := os_path_dirname (j_output j) in
  let made := map of_string (Tasks.made_before t) in
  (In t [Tasks.run_mapping; Tasks.mosdepth; Tasks.run_bamcoverage;
         Tasks.merge_sniffles] -> In directory made) /\
  (In t [Tasks.run_clair3; Tasks.run_sniffles;
         Tasks.merge_sniffles_variants] -> ~ In directory made).
Proof.
  intros Hplain HD Ht Hjobs Hj directory made.
  rewrite jobs_tidy in Hjobs by auto. injection Hjobs as <-.
  pose proof (In_samples names) as Hns. specialize (fun n => Hns n Ht).
  split; intros Hin.
  - destruct t; simpl in Hin; try (exfalso; intuition discriminate);
      cbn [expected] in Hj.
    + (* run_mapping *)
      apply in_map_iff in Hj as (n & <- & Hn).
      destruct (Hns n Hn) as (_ & _ & Hc). subst directory made.
      cbn [j_output].
      pose proof (dirname_flat "mapped.dir" "_sorted.bam" n
                    ltac:(discriminate) eq_refl eq_refl Hc) as E.
      rewrite_dirname E. now left.
    + (* merge_sniffles *)
      destruct Hj as [<-|[]]. subst directory made. vm_compute. auto.
    + (* mosdepth *)
      apply in_map_iff in Hj as (n & <- & Hn).
      destruct (Hns n Hn) as (_ & _ & Hc). subst directory made.
      cbn [j_output].
      pose proof (dirname_flat "coverage.dir" ".mosdepth.summary.txt" n
                    ltac:(discriminate) eq_refl eq_refl Hc) as E.
      rewrite_dirname E. now left.
    + (* run_bamcoverage *)
      apply in_map_iff in Hj as (n & <- & Hn).
      destruct (Hns n Hn) as (_ & _ & Hc). subst directory made.
      cbn [j_output].
      pose proof (dirname_flat "mapped.dir" ".bw" n
                    ltac:(discriminate) eq_refl eq_refl Hc) as E.
      rewrite_dirname E. now left.
  - destruct t; simpl in Hin; try (exfalso; intuition discriminate);
      cbn [expected] in Hj;
      apply in_map_iff in Hj as (n & <- & Hn); subst directory made;
      cbn [j_output]; destruct (Hns n Hn) as (Hne & _ & Hc).
    + (* run_clair3 *)
      pose proof (dirname_deep "Clair.dir/" "full_alignment.vcf.gz" n
                    eq_refl Hne Hc) as E.
      rewrite_dirname E.
      destruct n; [contradiction|]. simpl. intuition discriminate.
    + (* run_sniffles *)
      unfold snf.
      pose proof (dirname_deep "Sniffles.dir/" "output.snf" n
                    eq_refl Hne Hc) as E.
      rewrite_dirname E.
      destruct n; [contradiction|]. simpl. intuition discriminate.
    + (* merge_sniffles_variants *)
      pose proof (dirname_flat "filtered_vcf.dir"
                    "_sniffles_Qual30_output.vcf.gz" n
                    ltac:(discriminate) eq_refl eq_refl Hc) as E.
      rewrite_dirname E. simpl. intuition discriminate.
Qed.

Lemma output_directories_witness :
  ~ In (os_path_dirname (of_string "Sniffles.dir/s1/output.snf"))
       (map of_string (Tasks.made_before Tasks.run_sniffles)).
Proof.
  apply (proj2 (output_directories "." [of_string "s1.fastq.gz"]
                  Tasks.run_sniffles
                  [{| j_inputs := [of_string "mapped.dir/s1_sorted.bam"];
                      j_output := of_string "Sniffles.dir/s1/output.snf" |}]
                  {| j_inputs := [of_string "mapped.dir/s1_sorted.bam"];
                     j_output := of_string "Sniffles.dir/s1/output.snf" |}
                  eq_refl eq_refl eq_refl eq_refl
                  (or_introl eq_refl))).
  right. left. reflexivity.
Defined.

(** * Loading the module *)

Import InitFacts.

(** X17. What loading the module needs of [PARAMS].  The glob patterns
    are computed exactly when [PARAMS] has the key [data] with a value
    that equals 0 or 1 (an integer, a boolean or a float) or is a
    string, or when it has no such key and the module is only imported:
    the patterns are then [*.fastq.gz] and [*.fastq.1.gz] without a
    directory.  There are always two of them.  Without the key, when the
    module is run as the main program, loading ends with the [KeyError]
    of the configuration block; with any other value, a number other
    than 0 and 1, [None], a list, it ends with the [TypeError] of
    [os.path.join]. *)
Theorem SEQUENCEFILES_needs_data (only_import : bool)
    (PARAMS : gmap string Config.pyval) :
  ((exists files, Init.load only_import PARAMS = inr files) <->
   (PARAMS !! "data" = None /\ only_import = true) \/
   exists v, PARAMS !! "data" = Some v /\
     (Config.eq_int v 0 = true \/ Config.eq_int v 1 = true \/
      exists d, v = Config.VStr d)) /\
  (forall files, Init.load only_import PARAMS = inr files ->
     length files = 2) /\
  (PARAMS !! "data" = None -> only_import = true ->
   Init.load only_import PARAMS
   = inr [of_string "*.fastq.gz"; of_string "*.fastq.1.gz"]) /\
  (forall e, Init.load only_import PARAMS = inl (Init.Block e) <->
     PARAMS !! "data" = None /\ only_import = false /\
     e = Config.KeyError "missing parameter accessed") /\
  (Init.load only_import PARAMS = inl Init.TypeError <->
   exists v, PARAMS !! "data" = Some v /\
     Config.eq_int v 0 = false /\ Config.eq_int v 1 = false /\
     forall d, v <> Config.VStr d).
Proof.
  rewrite load_value.
  destruct (PARAMS !! "data") as [v|];
    [destruct (Config.eq_int v 0) eqn:H0;
       [|destruct (Config.eq_int v 1) eqn:H1; [|destruct v as [n|b|x|d| |]]]
    |destruct only_import];
    (split; [|split; [|split; [|split]]];
     [split; [intros [f Hf]|intros [[Hn Hi]|(w & Hw & Hc)]]
     |intros f Hf
     |intros Hn Hi
     |intros e; split; [intros He|intros (Hn & Hi & He)]
     |split; [intros Hl|intros (w & Hw & E0 & E1 & Hd)]]);
    try discriminate; try (injection Hw as <-);
    try congruence; try (injection Hf as <-; reflexivity);
    try (injection He as <-; auto);
    try (now contradiction (Hd d));
    try (destruct Hc as [Hc|[Hc|[d' Hc]]]; congruence);
    try reflexivity;
    eauto 8.
  all: try (right; eauto 8).
  all: try (eexists; repeat split; eauto; discriminate).
Qed.

Lemma SEQUENCEFILES_needs_data_witness :
  Init.load true ∅ = inr [of_string "*.fastq.gz"; of_string "*.fastq.1.gz"].
Proof.
  apply (proj1 (proj2 (proj2 (SEQUENCEFILES_needs_data true ∅))));
    reflexivity.
Defined.
